(** * go-i2c: the bus connection and its register access protocol

    A shallow embedding of package [i2c] (the connection type [I2C], its raw
    transfers and the SMBus-style register operations) together with the
    properties its specification states about it.

    The Go methods are written once, as programs over the requests the
    package makes of its surroundings: the mutex, the [*os.File] handle and
    the ioctl system call.  Two semantics interpret those programs: a
    sequential one, for a single caller, and an interleaving one, for two
    goroutines sharing the connection. *)

From Stdlib Require Import ZArith List Lia Bool.
From Stdlib Require String Ascii DecimalString DecimalZ.
Import ListNotations.
Open Scope Z_scope.

(** ** Machine integers

    Go's fixed-width integers are integers of [Z] with the wrap-around of
    each operation written out. *)

Definition u8 (x : Z) : Z := x mod 256.
Definition u16 (x : Z) : Z := x mod 65536.
Definition i16 (x : Z) : Z := (x + 32768) mod 65536 - 32768.

Definition is_u8 (x : Z) : Prop := 0 <= x < 256.
Definition is_u16 (x : Z) : Prop := 0 <= x < 65536.
Definition is_i16 (x : Z) : Prop := -32768 <= x < 32768.

(** ** Errors

    Go's [error] values that can reach the package: a [syscall.Errno], and
    the errors of [os.File]. *)

Inductive error : Type :=
| Errno (e : Z)
| ErrClosed
| EOF
| ErrShortWrite.

Definition ENXIO : Z := 6.
Definition EBADF : Z := 9.
Definition EINVAL : Z := 22.

(** ** Requests

    [Act X] is a request whose answer has type [X]:
    - [ALock], [AUnlock]: [this.mtx.Lock()], [this.mtx.Unlock()];
    - [AFd]: [this.rc.Fd()];
    - [AIoctl fd cmd arg]: [syscall.Syscall6(SYS_IOCTL, fd, cmd, arg, 0, 0, 0)],
      answered by the errno;
    - [AWrite buf]: [this.rc.Write(buf)], answered by [(n, err)];
    - [ARead p]: [this.rc.Read(p)], answered by the buffer as filled in place
      and [(n, err)];
    - [AClose]: [this.rc.Close()]. *)

Inductive Act : Type -> Type :=
| ALock : Act unit
| AUnlock : Act unit
| AFd : Act Z
| AIoctl (fd cmd arg : Z) : Act Z
| AWrite (buf : list Z) : Act (Z * option error)
| ARead (p : list Z) : Act (list Z * (Z * option error))
| AClose : Act (option error).

Inductive Prog (A : Type) : Type :=
| Ret (a : A)
| Do {X : Type} (a : Act X) (k : X -> Prog A).

Arguments Ret {A} a.
Arguments Do {A X} a k.

Fixpoint bind {A B : Type} (m : Prog A) (f : A -> Prog B) : Prog B :=
  match m with
  | Ret a => f a
  | Do a k => Do a (fun x => bind (k x) f)
  end.

Definition act {X : Type} (a : Act X) : Prog X := Do a Ret.

Declare Scope prog_scope.
Delimit Scope prog_scope with prog.
Notation "x <- m ;; k" := (bind m (fun x => k))
  (at level 61, m at next level, right associativity) : prog_scope.
Notation "' pat <- m ;; k" := (bind m (fun pat => k))
  (at level 61, pat pattern, m at next level, right associativity) : prog_scope.
Notation "m ;; k" := (bind m (fun _ => k))
  (at level 61, right associativity) : prog_scope.
Open Scope prog_scope.

(** ** The package

    The methods of [I2C], in the order of the source.  The diagnostic
    [log.Debug] lines, which trace the values of successful register accesses
    and touch neither the mutex nor the handle, are left out. *)

Module I2C.

Definition I2C_SLAVE : Z := 0x0703.

(** [make([]byte, n)] *)
Definition make (n : nat) : list Z := repeat 0 n.

(** [func ioctl(fd, cmd, arg uintptr) error] *)
Definition ioctl (fd cmd arg : Z) : Prog (option error) :=
  err <- act (AIoctl fd cmd arg) ;;
  if negb (err =? 0) then Ret (Some (Errno err)) else Ret None.

(** [func (this *I2C) setAddress(addr uint8) error] *)
Definition setAddress (addr : Z) : Prog (option error) :=
  fd <- act AFd ;;
  ioctl fd I2C_SLAVE addr.

(** [this.mtx.Lock(); defer this.mtx.Unlock()] around a body: the deferred
    unlock runs once the body has produced the values to return. *)
Definition with_mtx {A : Type} (body : Prog A) : Prog A :=
  act ALock ;;
  r <- body ;;
  act AUnlock ;;
  Ret r.

(** [func (this *I2C) writeNoSync(addr uint8, buf []byte) (int, error)].
    The source returns [nil, e] on the error path; the count is taken as the
    zero value. *)
Definition writeNoSync (addr : Z) (buf : list Z) : Prog (Z * option error) :=
  e <- setAddress addr ;;
  match e with
  | Some _ => Ret (0, e)
  | None => act (AWrite buf)
  end.

Definition Write (addr : Z) (buf : list Z) : Prog (Z * option error) :=
  with_mtx (writeNoSync addr buf).

Definition writeByteNoSync (addr b : Z) : Prog (Z * option error) :=
  let buf := [b] in
  writeNoSync addr buf.

Definition WriteByte (addr b : Z) : Prog (Z * option error) :=
  with_mtx (writeByteNoSync addr b).

(** [func (this *I2C) readNoSync(addr uint8, p []byte) (int, error)]; the
    buffer [p] is filled in place, so its content after the call is returned
    next to [(n, err)]. *)
Definition readNoSync (addr : Z) (p : list Z)
  : Prog (list Z * (Z * option error)) :=
  e <- setAddress addr ;;
  match e with
  | Some _ => Ret (p, (0, e))
  | None => act (ARead p)
  end.

Definition Read (addr : Z) (p : list Z) : Prog (list Z * (Z * option error)) :=
  with_mtx (readNoSync addr p).

Definition Close : Prog (option error) :=
  with_mtx (act AClose).

Definition ReadRegU8 (addr reg : Z) : Prog (Z * option error) :=
  with_mtx (
    '(_, err) <- writeNoSync addr [reg] ;;
    match err with
    | Some _ => Ret (0, err)
    | None =>
        let buf := make 1 in
        '(buf, (_, err)) <- readNoSync addr buf ;;
        match err with
        | Some _ => Ret (0, err)
        | None => Ret (nth 0 buf 0, None)
        end
    end).

Definition WriteRegU8 (addr reg value : Z) : Prog (option error) :=
  with_mtx (
    let buf := [reg; value] in
    '(_, err) <- writeNoSync addr buf ;;
    match err with
    | Some _ => Ret err
    | None => Ret None
    end).

Definition ReadRegU16BE (addr reg : Z) : Prog (Z * option error) :=
  with_mtx (
    '(_, err) <- writeNoSync addr [reg] ;;
    match err with
    | Some _ => Ret (0, err)
    | None =>
        let buf := make 2 in
        '(buf, (_, err)) <- readNoSync addr buf ;;
        match err with
        | Some _ => Ret (0, err)
        | None =>
            let w := u16 (u16 (Z.shiftl (nth 0 buf 0) 8) + nth 1 buf 0) in
            Ret (w, None)
        end
    end).

Definition ReadRegU16LE (addr reg : Z) : Prog (Z * option error) :=
  '(w, err) <- ReadRegU16BE addr reg ;;
  match err with
  | Some _ => Ret (0, err)
  | None =>
      let w := u16 (u16 (Z.shiftl (Z.land w 0xFF) 8) + Z.shiftr w 8) in
      Ret (w, None)
  end.

Definition ReadRegS16BE (addr reg : Z) : Prog (Z * option error) :=
  with_mtx (
    '(_, err) <- writeNoSync addr [reg] ;;
    match err with
    | Some _ => Ret (0, err)
    | None =>
        let buf := make 2 in
        '(buf, (_, err)) <- readNoSync addr buf ;;
        match err with
        | Some _ => Ret (0, err)
        | None =>
            let w := i16 (i16 (Z.shiftl (nth 0 buf 0) 8) + nth 1 buf 0) in
            Ret (w, None)
        end
    end).

Definition ReadRegS16LE (addr reg : Z) : Prog (Z * option error) :=
  '(w, err) <- ReadRegS16BE addr reg ;;
  match err with
  | Some _ => Ret (0, err)
  | None =>
      let w := i16 (i16 (Z.shiftl (Z.land w 0xFF) 8) + Z.shiftr w 8) in
      Ret (w, None)
  end.

Definition WriteRegU16BE (addr reg value : Z) : Prog (option error) :=
  with_mtx (
    let buf := [reg;
                u8 (Z.shiftr (Z.land value 0xFF00) 8);
                u8 (Z.land value 0xFF)] in
    '(_, err) <- writeNoSync addr buf ;;
    match err with
    | Some _ => Ret err
    | None => Ret None
    end).

Definition WriteRegU16LE (addr reg value : Z) : Prog (option error) :=
  let w := u16 (Z.shiftr (u16 (value * 0xFF00)) 8 + u16 (Z.shiftl value 8)) in
  WriteRegU16BE addr reg w.

Definition WriteRegS16BE (addr reg value : Z) : Prog (option error) :=
  with_mtx (
    let buf := [reg;
                u8 (Z.shiftr (Z.land (u16 value) 0xFF00) 8);
                u8 (Z.land value 0xFF)] in
    '(_, err) <- writeNoSync addr buf ;;
    match err with
    | Some _ => Ret err
    | None => Ret None
    end).

Definition WriteRegS16LE (addr reg value : Z) : Prog (option error) :=
  let w := i16 (i16 (Z.shiftr (u16 (u16 value * 0xFF00)) 8)
                + i16 (Z.shiftl value 8)) in
  WriteRegS16BE addr reg w.

End I2C.

(** ** The surroundings of a connection

    What answers the requests: the open handle, the kernel behind it and the
    peripheral on the bus, as one state of type [D].  [file_read] is asked for
    [n] bytes and answers with the bytes it supplies and the error. *)

Record Env (D : Type) : Type := {
  fd_of : D -> Z;
  sys_ioctl : D -> Z -> Z -> Z -> D * Z;
  file_write : D -> list Z -> D * (Z * option error);
  file_read : D -> nat -> D * (list Z * option error);
  file_close : D -> D * option error
}.

Arguments fd_of {D} _ _.
Arguments sys_ioctl {D} _ _ _ _ _.
Arguments file_write {D} _ _ _.
Arguments file_read {D} _ _ _.
Arguments file_close {D} _ _.

(** What the transport observes. *)
Inductive Event : Type :=
| EvIoctl (fd cmd arg : Z)
| EvWrite (buf : list Z)
| EvRead (n : nat)
| EvClose.

(** A buffer [p] after [data] has been read into it. *)
Definition fill (p data : list Z) : list Z :=
  firstn (length p) data ++ skipn (length data) p.

Record Outcome (D A : Type) : Type := {
  ret : A;
  dev : D;
  calls : list Event
}.

Arguments ret {D A} _.
Arguments dev {D A} _.
Arguments calls {D A} _.

Inductive tid : Type := T1 | T2.

Definition other (t : tid) : tid :=
  match t with T1 => T2 | T2 => T1 end.

Definition issued_by (t : tid) (e : tid * Event) : Prop := fst e = t.

(** Whatever the transport sees between two requests of one thread was
    issued by that thread. *)
Definition no_interleaving (tr : list (tid * Event)) : Prop :=
  forall t pre e1 mid e2 post,
    tr = pre ++ (t, e1) :: mid ++ (t, e2) :: post ->
    Forall (issued_by t) mid.

(** The requests of thread [t] come first, as one block, followed by those of
    the other thread. *)
Definition ordered (t : tid) (tr : list (tid * Event)) : Prop :=
  exists a b,
    tr = a ++ b /\ Forall (issued_by t) a /\ Forall (issued_by (other t)) b.

Definition is_ioctl (e : Event) : bool :=
  match e with EvIoctl _ _ _ => true | _ => false end.

Section Semantics.

Context {D : Type} (E : Env D).

(** The answer to one request, the state after it and what the transport saw
    of it.  The mutex requests do not reach the transport. *)
Definition handle {X : Type} (a : Act X) (d : D) : X * D * list Event :=
  match a in Act X return X * D * list Event with
  | ALock => (tt, d, [])
  | AUnlock => (tt, d, [])
  | AFd => (fd_of E d, d, [])
  | AIoctl fd cmd arg =>
      let '(d', e) := sys_ioctl E d fd cmd arg in
      (e, d', [EvIoctl fd cmd arg])
  | AWrite buf =>
      let '(d', r) := file_write E d buf in
      (r, d', [EvWrite buf])
  | ARead p =>
      let '(d', (data, err)) := file_read E d (length p) in
      ((fill p data, (Z.of_nat (length (firstn (length p) data)), err)),
       d', [EvRead (length p)])
  | AClose =>
      let '(d', e) := file_close E d in
      (e, d', [EvClose])
  end.

(** Sequential semantics: one caller at a time on a free mutex, for which
    [Lock] returns at once and the deferred [Unlock] releases it again. *)
Fixpoint exec {A : Type} (p : Prog A) (d : D) : Outcome D A :=
  match p with
  | Ret a => {| ret := a; dev := d; calls := [] |}
  | Do a k =>
      let '(x, d', evs) := handle a d in
      let o := exec (k x) d' in
      {| ret := ret o; dev := dev o; calls := evs ++ calls o |}
  end.

(** Interleaving semantics: one step of a thread, given the state of the
    mutex.  [Lock] on a held mutex does not step (the goroutine is parked);
    [Unlock] of a free mutex is a run-time panic. *)
Definition thread_step {A : Type} (m : bool) (d : D) (p : Prog A)
  : option (bool * D * Prog A * list Event) :=
  match p with
  | Ret _ => None
  | Do a k =>
      match a in Act X return (X -> Prog A) -> _ with
      | ALock => fun k => if m then None else Some (true, d, k tt, [])
      | AUnlock => fun k => if m then Some (false, d, k tt, []) else None
      | a' => fun k =>
          let '(x, d', evs) := handle a' d in
          Some (m, d', k x, evs)
      end k
  end.

Record Config (A B : Type) : Type := {
  mtx : bool;
  th1 : Prog A;
  th2 : Prog B;
  cdev : D;
  trace : list (tid * Event)
}.

Arguments mtx {A B} _.
Arguments th1 {A B} _.
Arguments th2 {A B} _.
Arguments cdev {A B} _.
Arguments trace {A B} _.

Definition tag (t : tid) (evs : list Event) : list (tid * Event) :=
  map (fun e => (t, e)) evs.

Inductive step {A B : Type} : Config A B -> Config A B -> Prop :=
| step_T1 c m d p evs :
    thread_step (mtx c) (cdev c) (th1 c) = Some (m, d, p, evs) ->
    step c {| mtx := m; th1 := p; th2 := th2 c; cdev := d;
              trace := trace c ++ tag T1 evs |}
| step_T2 c m d p evs :
    thread_step (mtx c) (cdev c) (th2 c) = Some (m, d, p, evs) ->
    step c {| mtx := m; th1 := th1 c; th2 := p; cdev := d;
              trace := trace c ++ tag T2 evs |}.

Inductive reachable {A B : Type} (c0 : Config A B) : Config A B -> Prop :=
| reach_refl : reachable c0 c0
| reach_step c c' : reachable c0 c -> step c c' -> reachable c0 c'.

(** Two goroutines about to call [p1] and [p2] on one connection. *)
Definition start {A B : Type} (d : D) (p1 : Prog A) (p2 : Prog B)
  : Config A B :=
  {| mtx := false; th1 := p1; th2 := p2; cdev := d; trace := [] |}.

(** One scheduling decision: thread [t] runs a step if it can. *)
Definition sched1 {A B : Type} (t : tid) (c : Config A B) : Config A B :=
  match t with
  | T1 =>
      match thread_step (mtx c) (cdev c) (th1 c) with
      | Some (m, d, p, evs) =>
          {| mtx := m; th1 := p; th2 := th2 c; cdev := d;
             trace := trace c ++ tag T1 evs |}
      | None => c
      end
  | T2 =>
      match thread_step (mtx c) (cdev c) (th2 c) with
      | Some (m, d, p, evs) =>
          {| mtx := m; th1 := th1 c; th2 := p; cdev := d;
             trace := trace c ++ tag T2 evs |}
      | None => c
      end
  end.

Definition schedule {A B : Type} (s : list tid) (c : Config A B)
  : Config A B :=
  fold_left (fun c t => sched1 t c) s c.

(** A thread that holds the mutex: it asks for no second [Lock], and leaves
    through [Unlock] followed at once by its return. *)
Fixpoint in_cs {A : Type} (p : Prog A) : Prop :=
  match p with
  | Ret _ => False
  | Do a k =>
      match a in Act X return (X -> Prog A) -> (X -> Prop) -> Prop with
      | ALock => fun _ _ => False
      | AUnlock => fun k _ => exists r, k tt = Ret r
      | _ => fun _ rec => forall x, rec x
      end k (fun x => in_cs (k x))
  end.

(** A call that acquires the mutex once, as its first request, and holds it
    until it returns. *)
Definition locks_once {A : Type} (p : Prog A) : Prop :=
  match p with
  | Do a k =>
      match a in Act X return (X -> Prog A) -> Prop with
      | ALock => fun k => in_cs (k tt)
      | _ => fun _ => False
      end k
  | Ret _ => False
  end.

Definition returned {A : Type} (p : Prog A) : Prop :=
  match p with Ret _ => True | Do _ _ => False end.

End Semantics.

Arguments mtx {D A B} _.
Arguments th1 {D A B} _.
Arguments th2 {D A B} _.
Arguments cdev {D A B} _.
Arguments trace {D A B} _.

(** ** A fake transport

    Modelled from the spec: the fake device of its testable properties, a
    transport "that stores the last 2 written bytes" and answers reads from
    that stored state, supplying no more than it holds.  One peripheral sits
    on the bus at [address]; the handle remembers the [target] of the last
    address-set, and a transfer aimed elsewhere is not acknowledged
    ([ENXIO]).  The first byte of a write is the register reference and the
    rest is data; a write carrying fewer than two data bytes leaves the
    stored bytes alone.  The handle follows [os.File]: once closed it reports
    the descriptor [-1] ([^uintptr(0)]) and refuses transfers with
    [ErrClosed]; the kernel side answers [EBADF] to a descriptor that is not
    open and [EINVAL] to a target address wider than 7 bits. *)

Definition invalid_fd : Z := -1.

Module Fake.

Record state : Type := {
  is_open : bool;
  address : Z;
  target : Z;
  stored : list Z
}.

Definition the_fd : Z := 3.

Definition keep_last2 (data old : list Z) : list Z :=
  if (2 <=? length data)%nat then skipn (length data - 2) data else old.

Definition fd (d : state) : Z :=
  if is_open d then the_fd else invalid_fd.

Definition do_ioctl (d : state) (fd cmd arg : Z) : state * Z :=
  if negb (is_open d) || negb (fd =? the_fd) then (d, EBADF)
  else if negb (cmd =? I2C.I2C_SLAVE) || (0x7F <? arg) then (d, EINVAL)
  else ({| is_open := true; address := address d; target := arg;
           stored := stored d |}, 0).

Definition do_write (d : state) (buf : list Z) : state * (Z * option error) :=
  if negb (is_open d) then (d, (0, Some ErrClosed))
  else if negb (target d =? address d) then (d, (0, Some (Errno ENXIO)))
  else ({| is_open := true; address := address d; target := target d;
           stored := keep_last2 (tl buf) (stored d) |},
        (Z.of_nat (length buf), None)).

Definition do_read (d : state) (n : nat) : state * (list Z * option error) :=
  if negb (is_open d) then (d, ([], Some ErrClosed))
  else if negb (target d =? address d) then (d, ([], Some (Errno ENXIO)))
  else match firstn n (stored d), n with
       | [], S _ => (d, ([], Some EOF))
       | data, _ => (d, (data, None))
       end.

Definition do_close (d : state) : state * option error :=
  if is_open d
  then ({| is_open := false; address := address d; target := target d;
           stored := stored d |}, None)
  else (d, Some ErrClosed).

Definition env : Env state := {|
  fd_of := fd;
  sys_ioctl := do_ioctl;
  file_write := do_write;
  file_read := do_read;
  file_close := do_close
|}.

(** A freshly opened handle on a bus whose peripheral, at [addr], holds
    [bytes]. *)
Definition holding (addr : Z) (bytes : list Z) : state :=
  {| is_open := true; address := addr; target := 0; stored := bytes |}.

End Fake.

(** ** Vocabulary of the properties *)

(** A body that leaves the mutex alone. *)
Fixpoint lockfree {A : Type} (p : Prog A) : Prop :=
  match p with
  | Ret _ => True
  | Do a k =>
      match a in Act X return (X -> Prop) -> Prop with
      | ALock | AUnlock => fun _ => False
      | _ => fun rec => forall x, rec x
      end (fun x => lockfree (k x))
  end.

(** The register-level operations that take the mutex themselves. *)
Inductive regop : Type :=
| OpReadRegU8 (addr reg : Z)
| OpWriteRegU8 (addr reg value : Z)
| OpReadRegU16BE (addr reg : Z)
| OpReadRegS16BE (addr reg : Z)
| OpWriteRegU16BE (addr reg value : Z)
| OpWriteRegS16BE (addr reg value : Z).

Definition regop_res (o : regop) : Type :=
  match o with
  | OpReadRegU8 _ _ | OpReadRegU16BE _ _ | OpReadRegS16BE _ _ =>
      (Z * option error)%type
  | OpWriteRegU8 _ _ _ | OpWriteRegU16BE _ _ _ | OpWriteRegS16BE _ _ _ =>
      option error
  end.

Definition regop_prog (o : regop) : Prog (regop_res o) :=
  match o return Prog (regop_res o) with
  | OpReadRegU8 addr reg => I2C.ReadRegU8 addr reg
  | OpWriteRegU8 addr reg value => I2C.WriteRegU8 addr reg value
  | OpReadRegU16BE addr reg => I2C.ReadRegU16BE addr reg
  | OpReadRegS16BE addr reg => I2C.ReadRegS16BE addr reg
  | OpWriteRegU16BE addr reg value => I2C.WriteRegU16BE addr reg value
  | OpWriteRegS16BE addr reg value => I2C.WriteRegS16BE addr reg value
  end.

(** Where a thread stands in its call: before [Lock], holding the mutex, or
    returned. *)
Inductive phase : Type := Fresh | Crit | Done.

Definition in_phase {A : Type} (ph : phase) (p : Prog A) : Prop :=
  match ph with
  | Fresh => locks_once p
  | Crit => in_cs p
  | Done => returned p
  end.

Definition holds (ph : phase) : bool :=
  match ph with Crit => true | _ => false end.

Definition trace_ok (ph1 ph2 : phase) (tr : list (tid * Event)) : Prop :=
  match ph1, ph2 with
  | Fresh, Fresh => tr = []
  | Crit, Crit => False
  | _, Fresh => Forall (issued_by T1) tr
  | Fresh, _ => Forall (issued_by T2) tr
  | Done, Crit => ordered T1 tr
  | Crit, Done => ordered T2 tr
  | Done, Done => ordered T1 tr \/ ordered T2 tr
  end.

Definition inv {D A B : Type} (c : Config (D := D) A B) : Prop :=
  exists ph1 ph2,
    in_phase ph1 (th1 c) /\ in_phase ph2 (th2 c) /\
    mtx c = holds ph1 || holds ph2 /\
    trace_ok ph1 ph2 (trace c).

(** From state [d], the reference phase for [reg] at [addr] goes through and
    the data read of [n] bytes is answered with [data] and no error. *)
Definition reg_read_answers {D : Type} (E : Env D) (d : D) (addr reg : Z)
  (n : nat) (data : list Z) : Prop :=
  exists d1 k d2 d3 d4,
    sys_ioctl E d (fd_of E d) I2C.I2C_SLAVE addr = (d1, 0) /\
    file_write E d1 [reg] = (d2, (k, None)) /\
    sys_ioctl E d2 (fd_of E d2) I2C.I2C_SLAVE addr = (d3, 0) /\
    file_read E d3 n = (d4, (data, None)).

(** The handle reports the invalid descriptor once closed, and the kernel
    answers [EBADF] to it without touching anything. *)
Definition closes_handle {D : Type} (E : Env D) : Prop :=
  forall d d', file_close E d = (d', None) -> fd_of E d' = invalid_fd.

Definition rejects_invalid_fd {D : Type} (E : Env D) : Prop :=
  forall d cmd arg, sys_ioctl E d invalid_fd cmd arg = (d, EBADF).

(** The byte swap of a 16-bit value, as the specification writes it:
    [(v&0xFF)<<8 | (v>>8)&0xFF]. *)
Definition spec_byte_swap (v : Z) : Z :=
  Z.lor (Z.shiftl (Z.land v 0xFF) 8) (Z.land (Z.shiftr v 8) 0xFF).

(** The register reads share one skeleton: reference phase, data phase of
    [n] bytes, and a conversion of the filled buffer; the register writes
    share another, one transfer of a prepared buffer. *)
Definition reg_read (n : nat) (conv : list Z -> Z) (addr reg : Z)
  : Prog (Z * option error) :=
  '(_, err) <- I2C.writeNoSync addr [reg] ;;
  match err with
  | Some _ => Ret (0, err)
  | None =>
      '(buf, (_, err)) <- I2C.readNoSync addr (I2C.make n) ;;
      match err with
      | Some _ => Ret (0, err)
      | None => Ret (conv buf, None)
      end
  end.

Definition reg_write (buf : list Z) (addr : Z) : Prog (option error) :=
  '(_, err) <- I2C.writeNoSync addr buf ;;
  match err with
  | Some _ => Ret err
  | None => Ret None
  end.

Definition conv_u8 (buf : list Z) : Z := nth 0 buf 0.
Definition conv_u16be (buf : list Z) : Z :=
  u16 (u16 (Z.shiftl (nth 0 buf 0) 8) + nth 1 buf 0).
Definition conv_s16be (buf : list Z) : Z :=
  i16 (i16 (Z.shiftl (nth 0 buf 0) 8) + nth 1 buf 0).

(** Every operation on the connection, called at [addr] from state [d],
    returns the error [err] (with the zero value for whatever else it
    returns), leaves the surroundings in state [d'] and lets the transport
    see exactly [seen]. *)
Definition every_operation_yields {D : Type} (E : Env D) (d : D) (addr : Z)
  (err : error) (d' : D) (seen : list Event) : Prop :=
  let out := fun (A : Type) (r : A) =>
    {| ret := r; dev := d'; calls := seen |} in
  (forall buf, exec E (I2C.Write addr buf) d = out _ (0, Some err)) /\
  (forall b, exec E (I2C.WriteByte addr b) d = out _ (0, Some err)) /\
  (forall p, exec E (I2C.Read addr p) d = out _ (p, (0, Some err))) /\
  (forall reg,
      exec E (I2C.ReadRegU8 addr reg) d = out _ (0, Some err) /\
      exec E (I2C.ReadRegU16BE addr reg) d = out _ (0, Some err) /\
      exec E (I2C.ReadRegU16LE addr reg) d = out _ (0, Some err) /\
      exec E (I2C.ReadRegS16BE addr reg) d = out _ (0, Some err) /\
      exec E (I2C.ReadRegS16LE addr reg) d = out _ (0, Some err)) /\
  (forall reg v,
      exec E (I2C.WriteRegU8 addr reg v) d = out _ (Some err) /\
      exec E (I2C.WriteRegU16BE addr reg v) d = out _ (Some err) /\
      exec E (I2C.WriteRegU16LE addr reg v) d = out _ (Some err) /\
      exec E (I2C.WriteRegS16BE addr reg v) d = out _ (Some err) /\
      exec E (I2C.WriteRegS16LE addr reg v) d = out _ (Some err)).

(** ** A transport that gives out

    A bus that answers a given number of requests and fails every later one
    with [EIO], so that a call can be cut at any of its requests.  Reads that
    are answered supply zero bytes. *)

Definition EIO : Z := 5.

Module Flaky.

Definition answer {X : Type} (budget : nat) (ok bad : X) : nat * X :=
  match budget with
  | O => (O, bad)
  | S rest => (rest, ok)
  end.

Definition env : Env nat := {|
  fd_of := fun _ => 3;
  sys_ioctl := fun d _ _ _ => answer d 0 EIO;
  file_write := fun d buf =>
    answer d (Z.of_nat (length buf), None) (0, Some (Errno EIO));
  file_read := fun d n =>
    answer d (repeat 0 n, None) ([], Some (Errno EIO));
  file_close := fun d => answer d None (Some (Errno EIO))
|}.

End Flaky.

(** ** Every exported method *)

Inductive method : Type :=
| MWrite (addr : Z) (buf : list Z)
| MWriteByte (addr b : Z)
| MRead (addr : Z) (p : list Z)
| MClose
| MReadRegU8 (addr reg : Z)
| MWriteRegU8 (addr reg value : Z)
| MReadRegU16BE (addr reg : Z)
| MReadRegU16LE (addr reg : Z)
| MReadRegS16BE (addr reg : Z)
| MReadRegS16LE (addr reg : Z)
| MWriteRegU16BE (addr reg value : Z)
| MWriteRegU16LE (addr reg value : Z)
| MWriteRegS16BE (addr reg value : Z)
| MWriteRegS16LE (addr reg value : Z).

Definition method_res (m : method) : Type :=
  match m with
  | MWrite _ _ | MWriteByte _ _ => (Z * option error)%type
  | MRead _ _ => (list Z * (Z * option error))%type
  | MClose => option error
  | MReadRegU8 _ _ | MReadRegU16BE _ _ | MReadRegU16LE _ _
  | MReadRegS16BE _ _ | MReadRegS16LE _ _ => (Z * option error)%type
  | MWriteRegU8 _ _ _ | MWriteRegU16BE _ _ _ | MWriteRegU16LE _ _ _
  | MWriteRegS16BE _ _ _ | MWriteRegS16LE _ _ _ => option error
  end.

Definition method_prog (m : method) : Prog (method_res m) :=
  match m return Prog (method_res m) with
  | MWrite addr buf => I2C.Write addr buf
  | MWriteByte addr b => I2C.WriteByte addr b
  | MRead addr p => I2C.Read addr p
  | MClose => I2C.Close
  | MReadRegU8 addr reg => I2C.ReadRegU8 addr reg
  | MWriteRegU8 addr reg value => I2C.WriteRegU8 addr reg value
  | MReadRegU16BE addr reg => I2C.ReadRegU16BE addr reg
  | MReadRegU16LE addr reg => I2C.ReadRegU16LE addr reg
  | MReadRegS16BE addr reg => I2C.ReadRegS16BE addr reg
  | MReadRegS16LE addr reg => I2C.ReadRegS16LE addr reg
  | MWriteRegU16BE addr reg value => I2C.WriteRegU16BE addr reg value
  | MWriteRegU16LE addr reg value => I2C.WriteRegU16LE addr reg value
  | MWriteRegS16BE addr reg value => I2C.WriteRegS16BE addr reg value
  | MWriteRegS16LE addr reg value => I2C.WriteRegS16LE addr reg value
  end.

(** ** Interleavings against sequential runs *)

(** An outcome reached after the transport has already seen [evs]. *)
Definition prepend {D A : Type} (evs : list Event) (o : Outcome D A)
  : Outcome D A :=
  {| ret := ret o; dev := dev o; calls := evs ++ calls o |}.

(** How far two goroutines, calling [p1] and [p2] from state [d0], have
    come, told in terms of the sequential runs of [p1] and [p2]: a call that
    has returned has done what [exec] says of it, and a call inside its
    critical section is an [exec] cut after the requests [evs]. *)
Inductive linear {D A B : Type} (E : Env D) (d0 : D)
  (p1 : Prog A) (p2 : Prog B) : Config (D := D) A B -> Prop :=
| lin_none c :
    mtx c = false -> th1 c = p1 -> th2 c = p2 -> cdev c = d0 ->
    trace c = [] ->
    linear E d0 p1 p2 c
| lin_in1 c evs :
    mtx c = true -> in_cs (th1 c) -> th2 c = p2 ->
    exec E p1 d0 = prepend evs (exec E (th1 c) (cdev c)) ->
    trace c = tag T1 evs ->
    linear E d0 p1 p2 c
| lin_in2 c evs :
    mtx c = true -> th1 c = p1 -> in_cs (th2 c) ->
    exec E p2 d0 = prepend evs (exec E (th2 c) (cdev c)) ->
    trace c = tag T2 evs ->
    linear E d0 p1 p2 c
| lin_done1 c :
    let o1 := exec E p1 d0 in
    mtx c = false -> th1 c = Ret (ret o1) -> th2 c = p2 ->
    cdev c = dev o1 -> trace c = tag T1 (calls o1) ->
    linear E d0 p1 p2 c
| lin_done2 c :
    let o2 := exec E p2 d0 in
    mtx c = false -> th1 c = p1 -> th2 c = Ret (ret o2) ->
    cdev c = dev o2 -> trace c = tag T2 (calls o2) ->
    linear E d0 p1 p2 c
| lin_done1_in2 c evs :
    let o1 := exec E p1 d0 in
    mtx c = true -> th1 c = Ret (ret o1) -> in_cs (th2 c) ->
    exec E p2 (dev o1) = prepend evs (exec E (th2 c) (cdev c)) ->
    trace c = tag T1 (calls o1) ++ tag T2 evs ->
    linear E d0 p1 p2 c
| lin_done2_in1 c evs :
    let o2 := exec E p2 d0 in
    mtx c = true -> in_cs (th1 c) -> th2 c = Ret (ret o2) ->
    exec E p1 (dev o2) = prepend evs (exec E (th1 c) (cdev c)) ->
    trace c = tag T2 (calls o2) ++ tag T1 evs ->
    linear E d0 p1 p2 c
| lin_12 c :
    let o1 := exec E p1 d0 in
    let o2 := exec E p2 (dev o1) in
    mtx c = false -> th1 c = Ret (ret o1) -> th2 c = Ret (ret o2) ->
    cdev c = dev o2 -> trace c = tag T1 (calls o1) ++ tag T2 (calls o2) ->
    linear E d0 p1 p2 c
| lin_21 c :
    let o2 := exec E p2 d0 in
    let o1 := exec E p1 (dev o2) in
    mtx c = false -> th1 c = Ret (ret o1) -> th2 c = Ret (ret o2) ->
    cdev c = dev o1 -> trace c = tag T2 (calls o2) ++ tag T1 (calls o1) ->
    linear E d0 p1 p2 c.

(** The two goroutines have returned what the sequential runs of [p1] then
    [p2] return, and the transport has seen the requests of those runs, in
    that order. *)
Definition ran_in_order {D A B : Type} (E : Env D) (d0 : D)
  (p1 : Prog A) (p2 : Prog B) (first : tid)
  (c : Config (D := D) A B) : Prop :=
  match first with
  | T1 =>
      let o1 := exec E p1 d0 in
      let o2 := exec E p2 (dev o1) in
      th1 c = Ret (ret o1) /\ th2 c = Ret (ret o2) /\ cdev c = dev o2 /\
      trace c = tag T1 (calls o1) ++ tag T2 (calls o2)
  | T2 =>
      let o2 := exec E p2 d0 in
      let o1 := exec E p1 (dev o2) in
      th1 c = Ret (ret o1) /\ th2 c = Ret (ret o2) /\ cdev c = dev o1 /\
      trace c = tag T2 (calls o2) ++ tag T1 (calls o1)
  end.

(** ** Opening a connection, and the command-line tool

    [NewI2C] and the [read] and [write] commands of [i2c-test] reach outside
    the package through [os.OpenFile], [strconv.ParseInt],
    [hex.DecodeString], [fmt.Printf] and [log.Fatal].  [OpenFile] and
    [ParseInt] are taken as they come, as parameters; the two hexadecimal
    conversions are written out: [%X] prints each byte as two upper-case
    digits, [DecodeString] reads pairs of digits of either case and refuses
    anything else.  [log.Fatal] ends the run, and so does the run-time panic
    of [make] on a negative length. *)

Module Cmd.

Import String Ascii.

(** [fmt.Sprintf("%d", n)] *)
Definition sprint_d (n : Z) : string :=
  DecimalString.NilZero.string_of_int (Z.to_int n).

(** [fmt.Sprintf("/dev/i2c-%d", bus)] *)
Definition device_path (bus : Z) : string :=
  String.append "/dev/i2c-"%string (sprint_d bus).

Definition O_RDWR : Z := 2.
Definition ModeExclusive : Z := 2 ^ 29.

Definition upper_digits : list ascii :=
  ["0"; "1"; "2"; "3"; "4"; "5"; "6"; "7";
   "8"; "9"; "A"; "B"; "C"; "D"; "E"; "F"]%char.

Definition hex_digit (n : Z) : ascii :=
  nth (Z.to_nat n) upper_digits "0"%char.

(** [fmt.Sprintf("%X", data)] on a byte slice *)
Fixpoint hex_upper (data : list Z) : string :=
  match data with
  | [] => EmptyString
  | b :: rest =>
      String (hex_digit (b / 16)) (String (hex_digit (b mod 16))
                                     (hex_upper rest))
  end.

Definition hex_value (c : ascii) : option Z :=
  let n := Z.of_nat (nat_of_ascii c) in
  if (48 <=? n) && (n <=? 57) then Some (n - 48)
  else if (97 <=? n) && (n <=? 102) then Some (n - 97 + 10)
  else if (65 <=? n) && (n <=? 70) then Some (n - 65 + 10)
  else None.

(** [hex.DecodeString(s)], [None] standing for its error *)
Fixpoint DecodeString (s : string) : option (list Z) :=
  match s with
  | EmptyString => Some []
  | String _ EmptyString => None
  | String hi (String lo rest) =>
      match hex_value hi, hex_value lo, DecodeString rest with
      | Some h, Some l, Some bytes => Some (Z.lor (Z.shiftl h 4) l :: bytes)
      | _, _, _ => None
      end
  end.

(** What [log.Fatal] was given. *)
Inductive fatal : Type :=
| BadNumber (s : string)
| BadHex (s : string)
| Failed (e : error).

(** How a command ends: by returning, with what it printed; in [log.Fatal];
    or in a run-time panic. *)
Inductive ended : Type :=
| Exited (stdout : string)
| Fatal (e : fatal)
| Panicked.

(** A run of a command: how it ended, the device node it asked
    [os.OpenFile] for, if it came to that, and what the transport saw. *)
Record run : Type := {
  status : ended;
  node : option string;
  bus_calls : list Event
}.

(** [fmt.Sprintf("0x%X\n", data)] *)
Definition sprint_0xX (data : list Z) : string :=
  String.append "0x"%string
    (String.append (hex_upper data) (String (ascii_of_nat 10) EmptyString)).

Section Commands.

Context {D : Type} (E : Env D).
Variable ParseInt : string -> Z -> Z -> option Z.
Variable OpenFile : string -> Z -> Z -> D + error.

(** [func NewI2C(bus int)], returning the connection or the error of
    [os.OpenFile]: the connection is the state of the surroundings of the
    opened handle, with a mutex that is free. *)
Definition NewI2C (bus : Z) : (D * bool) + error :=
  match OpenFile (device_path bus) O_RDWR ModeExclusive with
  | inr err => inr err
  | inl f => inl (f, false)
  end.

(** [func parseInt(s string) int] *)
Definition parseInt (s : string) : Z + fatal :=
  match ParseInt s 0 8 with
  | None => inr (BadNumber s)
  | Some i => inl i
  end.

(** [func parseHex(s string) []byte] *)
Definition parseHex (s : string) : list Z + fatal :=
  match DecodeString s with
  | None => inr (BadHex s)
  | Some b => inl b
  end.

Definition stop (e : fatal) : run :=
  {| status := Fatal e; node := None; bus_calls := [] |}.

(** [writeCmd.Run], on the three arguments [cobra.ExactArgs(3)] lets
    through *)
Definition write_Run (a0 a1 a2 : string) : run :=
  match parseInt a0 with
  | inr e => stop e
  | inl bus =>
  match parseInt a1 with
  | inr e => stop e
  | inl addr =>
  match parseHex a2 with
  | inr e => stop e
  | inl writeData =>
  match NewI2C bus with
  | inr e => {| status := Fatal (Failed e);
                node := Some (device_path bus); bus_calls := [] |}
  | inl (rc, _) =>
      let o := exec E (I2C.Write (u8 addr) writeData) rc in
      {| status := match snd (ret o) with
                   | Some e => Fatal (Failed e)
                   | None => Exited EmptyString
                   end;
         node := Some (device_path bus);
         bus_calls := calls o |}
  end end end end.

(** [readCmd.Run] *)
Definition read_Run (a0 a1 a2 : string) : run :=
  match parseInt a0 with
  | inr e => stop e
  | inl bus =>
  match parseInt a1 with
  | inr e => stop e
  | inl addr =>
  match parseInt a2 with
  | inr e => stop e
  | inl readCount =>
  match NewI2C bus with
  | inr e => {| status := Fatal (Failed e);
                node := Some (device_path bus); bus_calls := [] |}
  | inl (rc, _) =>
      if readCount <? 0
      then {| status := Panicked;
              node := Some (device_path bus); bus_calls := [] |}
      else
        let data := I2C.make (Z.to_nat readCount) in
        let o := exec E (I2C.Read (u8 addr) data) rc in
        {| status := match snd (snd (ret o)) with
                     | Some e => Fatal (Failed e)
                     | None =>
                         Exited (sprint_0xX (fst (ret o)))
                     end;
           node := Some (device_path bus);
           bus_calls := calls o |}
  end end end end.

End Commands.

(** The answers of [strconv.ParseInt(s, 0, 8)] and of [os.OpenFile] in a
    run of the tool, for the arguments that run is given: the numerals the
    table lists parse to the values beside them, and the one node that
    exists opens on the fake transport. *)
Definition ParseInt_table (table : list (string * Z)) (s : string)
  (base bitSize : Z) : option Z :=
  match find (fun entry => String.eqb (fst entry) s) table with
  | Some entry => Some (snd entry)
  | None => None
  end.

Definition ENOENT : Z := 2.

Definition OpenFile_only (path : string) (d : Fake.state) (name : string)
  (flag perm : Z) : Fake.state + error :=
  if String.eqb name path then inl d else inr (Errno ENOENT).

End Cmd.

(** * Properties *)

(** ** Arithmetic of the integer conversions *)

Lemma land_u16_low (x : Z) : Z.land (u16 x) 0xFF = Z.land x 0xFF.
Proof.
  unfold u16. change 65536 with (2 ^ 16).
  rewrite <- Z.land_ones by lia.
  rewrite <- Z.land_assoc. reflexivity.
Qed.

Lemma u8_bounds (x : Z) : is_u8 (u8 x).
Proof. unfold is_u8, u8. apply Z.mod_pos_bound. lia. Qed.

Lemma u16_bounds (x : Z) : is_u16 (u16 x).
Proof. unfold is_u16, u16. apply Z.mod_pos_bound. lia. Qed.

Lemma i16_bounds (x : Z) : is_i16 (i16 x).
Proof.
  unfold is_i16, i16.
  pose proof (Z.mod_pos_bound (x + 32768) 65536). lia.
Qed.

Lemma u16_id (x : Z) : is_u16 x -> u16 x = x.
Proof. unfold is_u16, u16. intros. apply Z.mod_small. lia. Qed.

Lemma i16_id (x : Z) : is_i16 x -> i16 x = x.
Proof. unfold is_i16, i16. intros. rewrite Z.mod_small; lia. Qed.

Lemma u8_high_bits (lo n : Z) : is_u8 lo -> 8 <= n -> Z.testbit lo n = false.
Proof.
  unfold is_u8. intros Hlo Hn.
  apply Z.testbit_false; [lia|].
  rewrite Z.div_small; [reflexivity|].
  split; [lia|].
  apply Z.lt_le_trans with (2 ^ 8); [simpl; lia|].
  apply Z.pow_le_mono_r; lia.
Qed.

Lemma bytes_disjoint (hi lo : Z) : is_u8 lo -> Z.land (hi * 2 ^ 8) lo = 0.
Proof.
  intros Hlo. apply Z.bits_inj'; intros n Hn.
  rewrite Z.land_spec, Z.bits_0.
  destruct (Z.ltb_spec n 8).
  - rewrite Z.mul_pow2_bits_low by lia. reflexivity.
  - rewrite (u8_high_bits lo n) by assumption. apply andb_false_r.
Qed.

(** Two bytes side by side: addition, as the source writes it, and bitwise or
    agree. *)
Lemma bytes_lor (hi lo : Z) :
  is_u8 lo -> Z.lor (Z.shiftl hi 8) lo = hi * 256 + lo.
Proof.
  intros Hlo. rewrite Z.shiftl_mul_pow2 by lia.
  pose proof (bytes_disjoint hi lo Hlo) as Hd.
  rewrite <- Z.lxor_lor by exact Hd.
  rewrite <- Z.add_nocarry_lxor by exact Hd.
  reflexivity.
Qed.

Lemma word_hi (hi lo : Z) :
  is_u8 hi -> is_u8 lo -> Z.shiftr (hi * 256 + lo) 8 = hi.
Proof.
  unfold is_u8. intros. rewrite Z.shiftr_div_pow2 by lia.
  change (2 ^ 8) with 256.
  rewrite Z.add_comm, Z.div_add by lia. rewrite Z.div_small; lia.
Qed.

Lemma word_lo (hi lo : Z) :
  is_u8 hi -> is_u8 lo -> Z.land (hi * 256 + lo) 0xFF = lo.
Proof.
  unfold is_u8. intros. change 0xFF with (Z.ones 8).
  rewrite Z.land_ones by lia. change (2 ^ 8) with 256.
  rewrite Z.add_comm, Z.mod_add by lia. apply Z.mod_small; lia.
Qed.

(** ** The sequential semantics *)

Section Sequential.

Context {D : Type} (E : Env D).

Import I2C.

Lemma outcome_eta {A : Type} (o : Outcome D A) :
  {| ret := ret o; dev := dev o; calls := calls o |} = o.
Proof. destruct o; reflexivity. Qed.

Lemma exec_bind {A B : Type} (m : Prog A) (f : A -> Prog B) (d : D) :
  exec E (bind m f) d =
  let o := exec E m d in
  let o' := exec E (f (ret o)) (dev o) in
  {| ret := ret o'; dev := dev o'; calls := calls o ++ calls o' |}.
Proof.
  revert d. induction m as [a | X a k IH]; intros d; cbn [bind exec].
  - cbn. apply eq_sym, outcome_eta.
  - destruct (handle E a d) as [[x d'] evs].
    rewrite IH. cbn. rewrite app_assoc. reflexivity.
Qed.

Lemma exec_with_mtx {A : Type} (body : Prog A) (d : D) :
  exec E (with_mtx body) d = exec E body d.
Proof.
  unfold with_mtx. cbn [act bind exec handle].
  rewrite exec_bind. cbn. rewrite app_nil_r. apply outcome_eta.
Qed.

(** [setAddress] issues the ioctl on the descriptor the handle reports and
    turns a non-zero errno into the error. *)
Lemma exec_setAddress (addr : Z) (d d' : D) (e : Z) :
  sys_ioctl E d (fd_of E d) I2C_SLAVE addr = (d', e) ->
  exec E (setAddress addr) d =
  {| ret := if negb (e =? 0) then Some (Errno e) else None;
     dev := d';
     calls := [EvIoctl (fd_of E d) I2C_SLAVE addr] |}.
Proof.
  intros H. unfold setAddress, ioctl. cbn. rewrite H.
  destruct (e =? 0); reflexivity.
Qed.

Lemma exec_writeNoSync_rejected (addr : Z) (buf : list Z) (d d' : D) (e : Z) :
  sys_ioctl E d (fd_of E d) I2C_SLAVE addr = (d', e) -> e <> 0 ->
  exec E (writeNoSync addr buf) d =
  {| ret := (0, Some (Errno e)); dev := d';
     calls := [EvIoctl (fd_of E d) I2C_SLAVE addr] |}.
Proof.
  intros H He. unfold writeNoSync. rewrite exec_bind.
  rewrite (exec_setAddress _ _ _ _ H). apply Z.eqb_neq in He.
  cbn. rewrite He. reflexivity.
Qed.

Lemma exec_writeNoSync_sent (addr : Z) (buf : list Z) (d d1 d2 : D)
  (r : Z * option error) :
  sys_ioctl E d (fd_of E d) I2C_SLAVE addr = (d1, 0) ->
  file_write E d1 buf = (d2, r) ->
  exec E (writeNoSync addr buf) d =
  {| ret := r; dev := d2;
     calls := [EvIoctl (fd_of E d) I2C_SLAVE addr; EvWrite buf] |}.
Proof.
  intros H Hw. unfold writeNoSync. rewrite exec_bind.
  rewrite (exec_setAddress _ _ _ _ H). cbn. rewrite Hw. reflexivity.
Qed.

Lemma exec_readNoSync_rejected (addr : Z) (p : list Z) (d d' : D) (e : Z) :
  sys_ioctl E d (fd_of E d) I2C_SLAVE addr = (d', e) -> e <> 0 ->
  exec E (readNoSync addr p) d =
  {| ret := (p, (0, Some (Errno e))); dev := d';
     calls := [EvIoctl (fd_of E d) I2C_SLAVE addr] |}.
Proof.
  intros H He. unfold readNoSync. rewrite exec_bind.
  rewrite (exec_setAddress _ _ _ _ H). apply Z.eqb_neq in He.
  cbn. rewrite He. reflexivity.
Qed.

Lemma exec_readNoSync_answered (addr : Z) (p data : list Z) (d d1 d2 : D)
  (err : option error) :
  sys_ioctl E d (fd_of E d) I2C_SLAVE addr = (d1, 0) ->
  file_read E d1 (length p) = (d2, (data, err)) ->
  exec E (readNoSync addr p) d =
  {| ret := (fill p data, (Z.of_nat (length (firstn (length p) data)), err));
     dev := d2;
     calls := [EvIoctl (fd_of E d) I2C_SLAVE addr; EvRead (length p)] |}.
Proof.
  intros H Hr. unfold readNoSync. rewrite exec_bind.
  rewrite (exec_setAddress _ _ _ _ H). cbn. rewrite Hr. reflexivity.
Qed.

End Sequential.

Section RegisterSkeletons.

Context {D : Type} (E : Env D).

Import I2C.

Lemma ReadRegU8_skeleton (addr reg : Z) :
  ReadRegU8 addr reg = with_mtx (reg_read 1 conv_u8 addr reg).
Proof. reflexivity. Qed.

Lemma ReadRegU16BE_skeleton (addr reg : Z) :
  ReadRegU16BE addr reg = with_mtx (reg_read 2 conv_u16be addr reg).
Proof. reflexivity. Qed.

Lemma ReadRegS16BE_skeleton (addr reg : Z) :
  ReadRegS16BE addr reg = with_mtx (reg_read 2 conv_s16be addr reg).
Proof. reflexivity. Qed.

Lemma WriteRegU8_skeleton (addr reg value : Z) :
  WriteRegU8 addr reg value = with_mtx (reg_write [reg; value] addr).
Proof. reflexivity. Qed.

Lemma WriteRegU16BE_skeleton (addr reg value : Z) :
  WriteRegU16BE addr reg value =
  with_mtx (reg_write [reg; u8 (Z.shiftr (Z.land value 0xFF00) 8);
                       u8 (Z.land value 0xFF)] addr).
Proof. reflexivity. Qed.

Lemma WriteRegS16BE_skeleton (addr reg value : Z) :
  WriteRegS16BE addr reg value =
  with_mtx (reg_write [reg; u8 (Z.shiftr (Z.land (u16 value) 0xFF00) 8);
                       u8 (Z.land value 0xFF)] addr).
Proof. reflexivity. Qed.

Lemma exec_reg_read_rejected n conv addr reg (d d' : D) (e : Z) :
  sys_ioctl E d (fd_of E d) I2C_SLAVE addr = (d', e) -> e <> 0 ->
  exec E (reg_read n conv addr reg) d =
  {| ret := (0, Some (Errno e)); dev := d';
     calls := [EvIoctl (fd_of E d) I2C_SLAVE addr] |}.
Proof.
  intros H He. unfold reg_read. rewrite exec_bind.
  rewrite (exec_writeNoSync_rejected E _ _ _ _ _ H He). reflexivity.
Qed.

Lemma exec_reg_read_unsent n conv addr reg (d d1 d2 : D) (k : Z) (err : error) :
  sys_ioctl E d (fd_of E d) I2C_SLAVE addr = (d1, 0) ->
  file_write E d1 [reg] = (d2, (k, Some err)) ->
  exec E (reg_read n conv addr reg) d =
  {| ret := (0, Some err); dev := d2;
     calls := [EvIoctl (fd_of E d) I2C_SLAVE addr; EvWrite [reg]] |}.
Proof.
  intros H Hw. unfold reg_read. rewrite exec_bind.
  rewrite (exec_writeNoSync_sent E _ _ _ _ _ _ H Hw). reflexivity.
Qed.

(** Once the reference phase has gone through, the data phase is
    [readNoSync] on a fresh buffer of [n] bytes. *)
Lemma exec_reg_read_referenced n conv addr reg (d d1 d2 : D) (k : Z) :
  sys_ioctl E d (fd_of E d) I2C_SLAVE addr = (d1, 0) ->
  file_write E d1 [reg] = (d2, (k, None)) ->
  exec E (reg_read n conv addr reg) d =
  let o := exec E (readNoSync addr (make n)) d2 in
  {| ret := match snd (snd (ret o)) with
            | Some _ => (0, snd (snd (ret o)))
            | None => (conv (fst (ret o)), None)
            end;
     dev := dev o;
     calls := [EvIoctl (fd_of E d) I2C_SLAVE addr; EvWrite [reg]] ++ calls o |}.
Proof.
  intros H Hw. unfold reg_read. rewrite exec_bind.
  rewrite (exec_writeNoSync_sent E _ _ _ _ _ _ H Hw).
  cbv zeta. cbn [ret dev calls]. cbv beta iota.
  rewrite exec_bind.
  destruct (exec E (readNoSync addr (make n)) d2) as [[buf [cnt [err|]]] d' evs];
    cbn; rewrite app_nil_r; reflexivity.
Qed.

Lemma make_length (n : nat) : length (make n) = n.
Proof. apply repeat_length. Qed.

Lemma exec_reg_read_answered n conv addr reg (d : D) (data : list Z) :
  reg_read_answers E d addr reg n data ->
  ret (exec E (reg_read n conv addr reg) d) = (conv (fill (make n) data), None).
Proof.
  intros (d1 & k & d2 & d3 & d4 & H1 & Hw & H2 & Hr).
  rewrite (exec_reg_read_referenced _ _ _ _ _ _ _ _ H1 Hw).
  rewrite <- (make_length n) in Hr.
  rewrite (exec_readNoSync_answered E _ _ _ _ _ _ _ H2 Hr). reflexivity.
Qed.

Lemma exec_reg_write_rejected buf addr (d d' : D) (e : Z) :
  sys_ioctl E d (fd_of E d) I2C_SLAVE addr = (d', e) -> e <> 0 ->
  exec E (reg_write buf addr) d =
  {| ret := Some (Errno e); dev := d';
     calls := [EvIoctl (fd_of E d) I2C_SLAVE addr] |}.
Proof.
  intros H He. unfold reg_write. rewrite exec_bind.
  rewrite (exec_writeNoSync_rejected E _ _ _ _ _ H He). reflexivity.
Qed.

Lemma exec_reg_write_sent buf addr (d d1 d2 : D) (k : Z) (err : option error) :
  sys_ioctl E d (fd_of E d) I2C_SLAVE addr = (d1, 0) ->
  file_write E d1 buf = (d2, (k, err)) ->
  exec E (reg_write buf addr) d =
  {| ret := err; dev := d2;
     calls := [EvIoctl (fd_of E d) I2C_SLAVE addr; EvWrite buf] |}.
Proof.
  intros H Hw. unfold reg_write. rewrite exec_bind.
  rewrite (exec_writeNoSync_sent E _ _ _ _ _ _ H Hw).
  destruct err; reflexivity.
Qed.

(** The little-endian readers run the big-endian one and convert what it
    returned. *)
Lemma exec_ReadRegU16LE addr reg (d : D) :
  exec E (ReadRegU16LE addr reg) d =
  let o := exec E (ReadRegU16BE addr reg) d in
  {| ret := match snd (ret o) with
            | Some _ => (0, snd (ret o))
            | None =>
                (u16 (u16 (Z.shiftl (Z.land (fst (ret o)) 0xFF) 8)
                      + Z.shiftr (fst (ret o)) 8), None)
            end;
     dev := dev o; calls := calls o |}.
Proof.
  unfold ReadRegU16LE. rewrite exec_bind.
  destruct (exec E (ReadRegU16BE addr reg) d) as [[w [err|]] d' evs];
    cbn; rewrite app_nil_r; reflexivity.
Qed.

Lemma exec_ReadRegS16LE addr reg (d : D) :
  exec E (ReadRegS16LE addr reg) d =
  let o := exec E (ReadRegS16BE addr reg) d in
  {| ret := match snd (ret o) with
            | Some _ => (0, snd (ret o))
            | None =>
                (i16 (i16 (Z.shiftl (Z.land (fst (ret o)) 0xFF) 8)
                      + Z.shiftr (fst (ret o)) 8), None)
            end;
     dev := dev o; calls := calls o |}.
Proof.
  unfold ReadRegS16LE. rewrite exec_bind.
  destruct (exec E (ReadRegS16BE addr reg) d) as [[w [err|]] d' evs];
    cbn; rewrite app_nil_r; reflexivity.
Qed.

End RegisterSkeletons.

(** ** Bytes of a 16-bit word *)

Lemma hi_byte (w : Z) :
  is_u16 w -> u8 (Z.shiftr (Z.land w 0xFF00) 8) = w / 256.
Proof.
  unfold is_u16, u8. intros Hw.
  rewrite Z.shiftr_land. change (Z.shiftr 0xFF00 8) with (Z.ones 8).
  rewrite Z.land_ones by lia. rewrite Z.shiftr_div_pow2 by lia.
  change (2 ^ 8) with 256.
  assert (0 <= w / 256 < 256).
  { split; [apply Z.div_pos; lia | apply Z.div_lt_upper_bound; lia]. }
  rewrite (Z.mod_small (w / 256) 256) by lia.
  apply Z.mod_small. lia.
Qed.

Lemma lo_byte (w : Z) : u8 (Z.land w 0xFF) = w mod 256.
Proof.
  unfold u8. change 0xFF with (Z.ones 8). rewrite Z.land_ones by lia.
  change (2 ^ 8) with 256. apply Z.mod_mod. lia.
Qed.

Lemma u16_lo_byte (v : Z) : u16 v mod 256 = v mod 256.
Proof.
  unfold u16. change 65536 with (256 * 256).
  rewrite Z.rem_mul_r by lia.
  rewrite (Z.mul_comm 256), Z.mod_add by lia.
  apply Z.mod_mod. lia.
Qed.

Lemma conv_u16be_bytes (b0 b1 : Z) :
  is_u8 b0 -> is_u8 b1 -> conv_u16be [b0; b1] = b0 * 256 + b1.
Proof.
  unfold is_u8, conv_u16be. intros H0 H1. cbn [nth].
  rewrite Z.shiftl_mul_pow2 by lia. change (2 ^ 8) with 256.
  unfold u16. rewrite (Z.mod_small (b0 * 256)) by lia.
  apply Z.mod_small. lia.
Qed.

Lemma swap_u16_bytes (b0 b1 : Z) :
  is_u8 b0 -> is_u8 b1 ->
  u16 (u16 (Z.shiftl (Z.land (b0 * 256 + b1) 0xFF) 8)
       + Z.shiftr (b0 * 256 + b1) 8) = b1 * 256 + b0.
Proof.
  intros H0 H1. rewrite word_lo, word_hi by assumption.
  unfold is_u8 in *.
  rewrite Z.shiftl_mul_pow2 by lia. change (2 ^ 8) with 256.
  unfold u16. rewrite (Z.mod_small (b1 * 256)) by lia.
  apply Z.mod_small. lia.
Qed.

Section Claims.

Context {D : Type} (E : Env D).

Import I2C.

Lemma rejected_address_aborts (d d' : D) (addr e : Z) :
  sys_ioctl E d (fd_of E d) I2C_SLAVE addr = (d', e) -> e <> 0 ->
  every_operation_yields E d addr (Errno e) d'
    [EvIoctl (fd_of E d) I2C_SLAVE addr].
Proof.
  intros H He. unfold every_operation_yields.
  set (out := fun (A : Type) (r : A) =>
         {| ret := r; dev := d';
            calls := [EvIoctl (fd_of E d) I2C_SLAVE addr] |}).
  assert (Hrd : forall n conv reg,
             exec E (with_mtx (reg_read n conv addr reg)) d
             = out _ (0, Some (Errno e))).
  { intros. rewrite exec_with_mtx. apply exec_reg_read_rejected; assumption. }
  assert (Hwr : forall buf,
             exec E (with_mtx (reg_write buf addr)) d
             = out _ (Some (Errno e))).
  { intros. rewrite exec_with_mtx. apply exec_reg_write_rejected; assumption. }
  repeat split; intros.
  - unfold Write. rewrite exec_with_mtx.
    apply exec_writeNoSync_rejected; assumption.
  - unfold WriteByte, writeByteNoSync. rewrite exec_with_mtx.
    apply exec_writeNoSync_rejected; assumption.
  - unfold Read. rewrite exec_with_mtx.
    apply exec_readNoSync_rejected; assumption.
  - apply Hrd.
  - apply Hrd.
  - rewrite exec_ReadRegU16LE. rewrite ReadRegU16BE_skeleton, Hrd. reflexivity.
  - apply Hrd.
  - rewrite exec_ReadRegS16LE. rewrite ReadRegS16BE_skeleton, Hrd. reflexivity.
  - apply Hwr.
  - apply Hwr.
  - apply Hwr.
  - apply Hwr.
  - apply Hwr.
Qed.

Lemma ReadRegU16BE_value (d : D) (addr reg b0 b1 : Z) :
  reg_read_answers E d addr reg 2 [b0; b1] -> is_u8 b0 -> is_u8 b1 ->
  ret (exec E (ReadRegU16BE addr reg) d) = (b0 * 256 + b1, None).
Proof.
  intros Hans H0 H1. rewrite ReadRegU16BE_skeleton, exec_with_mtx.
  rewrite (exec_reg_read_answered E _ _ _ _ _ _ Hans).
  change (fill (make 2) [b0; b1]) with [b0; b1].
  rewrite conv_u16be_bytes by assumption. reflexivity.
Qed.

(** C6: when the set-target-address request is rejected, [Write],
    [WriteByte], [Read] and every register operation return the error of that
    request, unchanged, and the transport has seen the request and no
    transfer; when the reference-byte write of a register read fails, the
    read returns that error and neither a second address-set nor the data
    read is issued. *)
Theorem address_set_failure_aborts (d : D) (addr : Z) :
  (forall d' e,
      sys_ioctl E d (fd_of E d) I2C_SLAVE addr = (d', e) -> e <> 0 ->
      every_operation_yields E d addr (Errno e) d'
        [EvIoctl (fd_of E d) I2C_SLAVE addr])
  /\
  (forall d1 d2 k err reg,
      sys_ioctl E d (fd_of E d) I2C_SLAVE addr = (d1, 0) ->
      file_write E d1 [reg] = (d2, (k, Some err)) ->
      let out :=
        {| ret := (0, Some err); dev := d2;
           calls := [EvIoctl (fd_of E d) I2C_SLAVE addr; EvWrite [reg]] |} in
      exec E (ReadRegU8 addr reg) d = out /\
      exec E (ReadRegU16BE addr reg) d = out /\
      exec E (ReadRegU16LE addr reg) d = out /\
      exec E (ReadRegS16BE addr reg) d = out /\
      exec E (ReadRegS16LE addr reg) d = out).
Proof.
  split.
  - intros d' e H He. apply rejected_address_aborts; assumption.
  - intros d1 d2 k err reg H Hw out.
    assert (Hrd : forall n conv,
               exec E (with_mtx (reg_read n conv addr reg)) d = out).
    { intros. rewrite exec_with_mtx. eapply exec_reg_read_unsent; eassumption. }
    repeat split.
    + apply Hrd.
    + apply Hrd.
    + rewrite exec_ReadRegU16LE. rewrite ReadRegU16BE_skeleton, Hrd. reflexivity.
    + apply Hrd.
    + rewrite exec_ReadRegS16LE. rewrite ReadRegS16BE_skeleton, Hrd. reflexivity.
Qed.

(** C10: in a register read whose reference phase goes through, the
    transport sees the set-target-address request twice, once right before
    the write of the reference byte and once more right before the data
    read. *)
Theorem register_reads_set_address_twice (d d1 d2 : D) (addr reg k : Z) :
  sys_ioctl E d (fd_of E d) I2C_SLAVE addr = (d1, 0) ->
  file_write E d1 [reg] = (d2, (k, None)) ->
  let again := sys_ioctl E d2 (fd_of E d2) I2C_SLAVE addr in
  let seen := fun n : nat =>
    [EvIoctl (fd_of E d) I2C_SLAVE addr; EvWrite [reg];
     EvIoctl (fd_of E d2) I2C_SLAVE addr]
    ++ (if snd again =? 0 then [EvRead n] else []) in
  (calls (exec E (ReadRegU8 addr reg) d) = seen 1%nat /\
   calls (exec E (ReadRegU16BE addr reg) d) = seen 2%nat /\
   calls (exec E (ReadRegS16BE addr reg) d) = seen 2%nat) /\
  (forall n, length (filter is_ioctl (seen n)) = 2%nat).
Proof.
  intros H Hw again seen.
  assert (Hrd : forall n conv,
             calls (exec E (with_mtx (reg_read n conv addr reg)) d) = seen n).
  { intros n conv. rewrite exec_with_mtx.
    rewrite (exec_reg_read_referenced _ _ _ _ _ _ _ _ _ H Hw).
    subst seen again. cbv zeta. cbn [calls].
    destruct (sys_ioctl E d2 (fd_of E d2) I2C_SLAVE addr) as [d3 e] eqn:H2.
    cbn [snd]. destruct (Z.eqb_spec e 0) as [->|He].
    - destruct (file_read E d3 (length (make n))) as [d4 [data err]] eqn:Hr.
      rewrite (exec_readNoSync_answered E _ _ _ _ _ _ _ H2 Hr).
      rewrite make_length. reflexivity.
    - rewrite (exec_readNoSync_rejected E _ _ _ _ _ H2 He). reflexivity. }
  split.
  - repeat split; apply Hrd.
  - intros n. subst seen. cbv beta.
    destruct (snd again =? 0); reflexivity.
Qed.

(** C5: when the transport answers the data read with [b0] then [b1],
    [ReadRegU16BE] returns [b0<<8 | b1] and [ReadRegU16LE] returns
    [b1<<8 | b0]. *)
Theorem ReadRegU16_endianness (d : D) (addr reg b0 b1 : Z) :
  reg_read_answers E d addr reg 2 [b0; b1] -> is_u8 b0 -> is_u8 b1 ->
  ret (exec E (ReadRegU16BE addr reg) d) = (Z.lor (Z.shiftl b0 8) b1, None) /\
  ret (exec E (ReadRegU16LE addr reg) d) = (Z.lor (Z.shiftl b1 8) b0, None).
Proof.
  intros Hans H0 H1.
  pose proof (ReadRegU16BE_value d addr reg b0 b1 Hans H0 H1) as Hbe.
  split.
  - rewrite Hbe, bytes_lor by assumption. reflexivity.
  - rewrite exec_ReadRegU16LE. cbv zeta. cbn [ret]. rewrite Hbe. cbn [fst snd].
    rewrite swap_u16_bytes, bytes_lor by assumption. reflexivity.
Qed.

(** C3, as the code has it: once the address is set, [Read] returns what the
    handle's read reports, count and error alike; bytes the transport did not
    supply keep their old content, and when it supplies fewer than
    [len(buf)] without an error so does [Read]. *)
Theorem Read_relays_handle_read (d d1 d2 : D) (addr : Z) (p data : list Z)
  (err : option error) :
  sys_ioctl E d (fd_of E d) I2C_SLAVE addr = (d1, 0) ->
  file_read E d1 (length p) = (d2, (data, err)) ->
  exec E (Read addr p) d =
  {| ret := (fill p data,
             (Z.of_nat (Nat.min (length p) (length data)), err));
     dev := d2;
     calls := [EvIoctl (fd_of E d) I2C_SLAVE addr; EvRead (length p)] |}.
Proof.
  intros H Hr. unfold Read. rewrite exec_with_mtx.
  rewrite (exec_readNoSync_answered E _ _ _ _ _ _ _ H Hr).
  rewrite length_firstn. reflexivity.
Qed.

(** C9: [WriteRegS16BE] on [v] is the very call [WriteRegU16BE] makes on the
    unsigned reinterpretation of [v]: after the address-set, one transfer of
    the register reference, the high byte and the low byte of that word. *)
Theorem WriteRegS16BE_as_U16BE (addr reg v : Z) :
  WriteRegS16BE addr reg v = WriteRegU16BE addr reg (u16 v) /\
  forall d,
    exec E (WriteRegS16BE addr reg v) d
    = exec E (WriteRegU16BE addr reg (u16 v)) d /\
    calls (exec E (WriteRegS16BE addr reg v) d)
    = EvIoctl (fd_of E d) I2C_SLAVE addr
      :: (if snd (sys_ioctl E d (fd_of E d) I2C_SLAVE addr) =? 0
          then [EvWrite [reg; u16 v / 256; u16 v mod 256]]
          else []).
Proof.
  assert (Heq : WriteRegS16BE addr reg v = WriteRegU16BE addr reg (u16 v)).
  { rewrite WriteRegS16BE_skeleton, WriteRegU16BE_skeleton.
    rewrite land_u16_low. reflexivity. }
  split; [exact Heq|]. intros d. split; [rewrite Heq; reflexivity|].
  rewrite WriteRegS16BE_skeleton, exec_with_mtx.
  rewrite (hi_byte (u16 v)) by apply u16_bounds.
  rewrite lo_byte, <- u16_lo_byte.
  destruct (sys_ioctl E d (fd_of E d) I2C_SLAVE addr) as [d1 e] eqn:H.
  cbn [snd]. destruct (Z.eqb_spec e 0) as [->|He].
  - destruct (file_write E d1 [reg; u16 v / 256; u16 v mod 256])
      as [d2 [k err]] eqn:Hw.
    rewrite (exec_reg_write_sent E _ _ _ _ _ _ _ H Hw). reflexivity.
  - rewrite (exec_reg_write_rejected E _ _ _ _ _ H He). reflexivity.
Qed.

End Claims.

(** ** The little-endian helpers, as written *)

(** The word [WriteRegU16LE] hands to the big-endian writer: the low byte of
    [v] on top, and the low byte of [-v] below it. *)
Lemma le_word_u16 (v : Z) :
  u16 (Z.shiftr (u16 (v * 0xFF00)) 8 + u16 (Z.shiftl v 8))
  = (v mod 256) * 256 + (- v) mod 256.
Proof.
  unfold u16. rewrite Z.shiftr_div_pow2, Z.shiftl_mul_pow2 by lia.
  change (2 ^ 8) with 256. Z.div_mod_to_equations. lia.
Qed.

Lemma le_word_s16 (v : Z) :
  u16 (i16 (i16 (Z.shiftr (u16 (u16 v * 0xFF00)) 8) + i16 (Z.shiftl v 8)))
  = (v mod 256) * 256 + (- v) mod 256.
Proof.
  unfold u16, i16. rewrite Z.shiftr_div_pow2, Z.shiftl_mul_pow2 by lia.
  change (2 ^ 8) with 256. Z.div_mod_to_equations. lia.
Qed.

(** The exchange of bytes in [ReadRegS16LE]: [w>>8] on a negative [int16]
    drags the sign along, which takes one off the byte above. *)
Lemma s16_exchange (b0 b1 : Z) :
  is_u8 b0 -> is_u8 b1 ->
  i16 (i16 (Z.shiftl (Z.land (conv_s16be [b0; b1]) 0xFF) 8)
       + Z.shiftr (conv_s16be [b0; b1]) 8)
  = i16 (b1 * 256 + b0 - (if b0 <? 128 then 0 else 256)).
Proof.
  unfold is_u8, conv_s16be. intros H0 H1. cbn [nth].
  change 0xFF with (Z.ones 8). rewrite Z.land_ones by lia.
  rewrite Z.shiftr_div_pow2, !Z.shiftl_mul_pow2 by lia.
  change (2 ^ 8) with 256. unfold i16.
  destruct (Z.ltb_spec b0 128); Z.div_mod_to_equations; lia.
Qed.

Section LittleEndian.

Context {D : Type} (E : Env D).

Import I2C.

Lemma ReadRegS16LE_value (d : D) (addr reg b0 b1 : Z) :
  reg_read_answers E d addr reg 2 [b0; b1] -> is_u8 b0 -> is_u8 b1 ->
  ret (exec E (ReadRegS16LE addr reg) d)
  = (i16 (b1 * 256 + b0 - (if b0 <? 128 then 0 else 256)), None).
Proof.
  intros Hans H0 H1. rewrite exec_ReadRegS16LE. cbv zeta. cbn [ret].
  rewrite ReadRegS16BE_skeleton, exec_with_mtx.
  rewrite (exec_reg_read_answered E _ _ _ _ _ _ Hans).
  change (fill (make 2) [b0; b1]) with [b0; b1]. cbn [fst snd].
  rewrite s16_exchange by assumption. reflexivity.
Qed.

Lemma WriteRegU16LE_wire (d : D) (addr reg v : Z) :
  calls (exec E (WriteRegU16LE addr reg v) d)
  = EvIoctl (fd_of E d) I2C_SLAVE addr
    :: (if snd (sys_ioctl E d (fd_of E d) I2C_SLAVE addr) =? 0
        then [EvWrite [reg; v mod 256; (- v) mod 256]]
        else []).
Proof.
  unfold WriteRegU16LE. cbv zeta.
  rewrite WriteRegU16BE_skeleton, exec_with_mtx.
  rewrite hi_byte by apply u16_bounds. rewrite lo_byte, le_word_u16.
  replace (((v mod 256) * 256 + (- v) mod 256) / 256) with (v mod 256)
    by (Z.div_mod_to_equations; lia).
  replace (((v mod 256) * 256 + (- v) mod 256) mod 256) with ((- v) mod 256)
    by (Z.div_mod_to_equations; lia).
  destruct (sys_ioctl E d (fd_of E d) I2C_SLAVE addr) as [d1 e] eqn:H.
  cbn [snd]. destruct (Z.eqb_spec e 0) as [->|He].
  - destruct (file_write E d1 [reg; v mod 256; (- v) mod 256])
      as [d2 [k err]] eqn:Hw.
    rewrite (exec_reg_write_sent E _ _ _ _ _ _ _ H Hw). reflexivity.
  - rewrite (exec_reg_write_rejected E _ _ _ _ _ H He). reflexivity.
Qed.

Lemma WriteRegS16LE_wire (d : D) (addr reg v : Z) :
  calls (exec E (WriteRegS16LE addr reg v) d)
  = EvIoctl (fd_of E d) I2C_SLAVE addr
    :: (if snd (sys_ioctl E d (fd_of E d) I2C_SLAVE addr) =? 0
        then [EvWrite [reg; v mod 256; (- v) mod 256]]
        else []).
Proof.
  unfold WriteRegS16LE. cbv zeta.
  rewrite WriteRegS16BE_skeleton, exec_with_mtx.
  rewrite hi_byte by apply u16_bounds.
  rewrite lo_byte, <- u16_lo_byte, le_word_s16.
  replace (((v mod 256) * 256 + (- v) mod 256) / 256) with (v mod 256)
    by (Z.div_mod_to_equations; lia).
  replace (((v mod 256) * 256 + (- v) mod 256) mod 256) with ((- v) mod 256)
    by (Z.div_mod_to_equations; lia).
  destruct (sys_ioctl E d (fd_of E d) I2C_SLAVE addr) as [d1 e] eqn:H.
  cbn [snd]. destruct (Z.eqb_spec e 0) as [->|He].
  - destruct (file_write E d1 [reg; v mod 256; (- v) mod 256])
      as [d2 [k err]] eqn:Hw.
    rewrite (exec_reg_write_sent E _ _ _ _ _ _ _ H Hw). reflexivity.
  - rewrite (exec_reg_write_rejected E _ _ _ _ _ H He). reflexivity.
Qed.

(** Where the first byte received has its top bit clear the exchange is
    right. *)
Lemma ReadRegS16LE_first_byte_small (d : D) (addr reg b0 b1 : Z) :
  reg_read_answers E d addr reg 2 [b0; b1] -> 0 <= b0 < 128 -> is_u8 b1 ->
  ret (exec E (ReadRegS16LE addr reg) d)
  = (i16 (Z.lor (Z.shiftl b1 8) b0), None).
Proof.
  intros Hans H0 H1.
  assert (Hb0 : is_u8 b0) by (unfold is_u8; lia).
  rewrite (ReadRegS16LE_value d addr reg b0 b1 Hans Hb0 H1).
  destruct (Z.ltb_spec b0 128); [|lia].
  rewrite bytes_lor by exact Hb0. rewrite Z.sub_0_r. reflexivity.
Qed.

End LittleEndian.

(** ** The fake transport *)

Lemma Fake_ioctl_accepts (d : Fake.state) (addr : Z) :
  Fake.is_open d = true -> 0 <= addr <= 0x7F ->
  sys_ioctl Fake.env d (fd_of Fake.env d) I2C.I2C_SLAVE addr
  = ({| Fake.is_open := true; Fake.address := Fake.address d;
        Fake.target := addr; Fake.stored := Fake.stored d |}, 0).
Proof.
  intros Ho Ha. cbn. unfold Fake.do_ioctl, Fake.fd. rewrite Ho. cbn.
  destruct (Z.ltb_spec 127 addr); [lia | reflexivity].
Qed.

Lemma Fake_closes_handle : closes_handle Fake.env.
Proof.
  intros d d'. cbn. unfold Fake.do_close, Fake.fd.
  destruct (Fake.is_open d); intros H; inversion H. reflexivity.
Qed.

Lemma Fake_rejects_invalid_fd : rejects_invalid_fd Fake.env.
Proof.
  intros d cmd arg. cbn. unfold Fake.do_ioctl.
  rewrite orb_true_r. reflexivity.
Qed.

(** After [WriteRegU16BE] the fake device answers a register read with the
    two data bytes of the write. *)
Lemma Fake_written_word_read_back (d : Fake.state) (addr reg v : Z) :
  0 <= addr <= 0x7F -> Fake.is_open d = true -> Fake.address d = addr ->
  let o := exec Fake.env (I2C.WriteRegU16BE addr reg v) d in
  ret o = None /\
  Fake.stored (dev o)
  = [u8 (Z.shiftr (Z.land v 0xFF00) 8); u8 (Z.land v 0xFF)] /\
  reg_read_answers Fake.env (dev o) addr reg 2
    [u8 (Z.shiftr (Z.land v 0xFF00) 8); u8 (Z.land v 0xFF)].
Proof.
  intros Ha Ho Hd.
  rewrite WriteRegU16BE_skeleton. cbv zeta. rewrite exec_with_mtx.
  set (hi := u8 (Z.shiftr (Z.land v 0xFF00) 8)).
  set (lo := u8 (Z.land v 0xFF)).
  set (d2 := {| Fake.is_open := true; Fake.address := addr;
                Fake.target := addr; Fake.stored := [hi; lo] |}).
  assert (Hw : file_write Fake.env
                 {| Fake.is_open := true; Fake.address := Fake.address d;
                    Fake.target := addr; Fake.stored := Fake.stored d |}
                 [reg; hi; lo] = (d2, (3, None))).
  { cbn. unfold Fake.do_write. cbn. rewrite Hd, Z.eqb_refl. reflexivity. }
  rewrite (exec_reg_write_sent Fake.env _ _ _ _ _ _ _
             (Fake_ioctl_accepts d addr Ho Ha) Hw).
  cbn [ret dev]. repeat split.
  exists d2, 1, d2, d2, d2. repeat split.
  - apply (Fake_ioctl_accepts d2 addr); [reflexivity | exact Ha].
  - cbn. unfold Fake.do_write. cbn. rewrite Z.eqb_refl. reflexivity.
  - apply (Fake_ioctl_accepts d2 addr); [reflexivity | exact Ha].
  - cbn. unfold Fake.do_read. cbn. rewrite Z.eqb_refl. reflexivity.
Qed.

(** C8: on the fake device that stores the last two data bytes written,
    [WriteRegU16BE] of a 16-bit [v] followed by [ReadRegU16BE] of the same
    register returns [v]. *)
Theorem U16BE_write_read_roundtrip (d : Fake.state) (addr reg v : Z) :
  is_u16 v -> 0 <= addr <= 0x7F ->
  Fake.is_open d = true -> Fake.address d = addr ->
  let o1 := exec Fake.env (I2C.WriteRegU16BE addr reg v) d in
  let o2 := exec Fake.env (I2C.ReadRegU16BE addr reg) (dev o1) in
  ret o1 = None /\
  Fake.stored (dev o1) = [v / 256; v mod 256] /\
  ret o2 = (v, None).
Proof.
  intros Hv Ha Ho Hd o1 o2.
  destruct (Fake_written_word_read_back d addr reg v Ha Ho Hd)
    as (Hret & Hst & Hans).
  fold o1 in Hret, Hst, Hans.
  rewrite hi_byte, lo_byte in Hst, Hans by assumption.
  repeat split; try assumption.
  subst o2. rewrite (ReadRegU16BE_value Fake.env _ _ _ _ _ Hans).
  - f_equal. unfold is_u16 in Hv. Z.div_mod_to_equations. lia.
  - unfold is_u8, is_u16 in *. Z.div_mod_to_equations. lia.
  - unfold is_u8. Z.div_mod_to_equations. lia.
Qed.

Section ClosedConnection.

Context {D : Type} (E : Env D).

Import I2C.

Lemma exec_Close (d : D) :
  exec E Close d =
  {| ret := snd (file_close E d); dev := fst (file_close E d);
     calls := [EvClose] |}.
Proof.
  unfold Close. rewrite exec_with_mtx. cbn.
  destruct (file_close E d); reflexivity.
Qed.

(** C7, as the code has it: the connection keeps no record of having been
    closed.  Where the closed handle reports the invalid descriptor and the
    kernel answers [EBADF] to it, every operation after a successful [Close]
    still issues the set-target-address request, on that descriptor, returns
    [EBADF] and attempts no transfer. *)
Theorem closed_connection_fails_at_address_set (d : D) (addr : Z) :
  closes_handle E -> rejects_invalid_fd E ->
  ret (exec E Close d) = None ->
  let d' := dev (exec E Close d) in
  every_operation_yields E d' addr (Errno EBADF) d'
    [EvIoctl invalid_fd I2C_SLAVE addr].
Proof.
  intros Hc Hr Hret d'. subst d'. rewrite exec_Close in *. cbn [ret dev] in *.
  destruct (file_close E d) as [d' e] eqn:Hcl. cbn [fst snd] in *. subst e.
  pose proof (Hc d d' Hcl) as Hfd.
  pose proof (rejected_address_aborts E d' d' addr EBADF) as H.
  rewrite Hfd in H. apply H; [apply Hr | discriminate].
Qed.

End ClosedConnection.

(** ** The mutex discipline of the operations *)

Lemma lockfree_bind {A B : Type} (m : Prog A) (f : A -> Prog B) :
  lockfree m -> (forall a, lockfree (f a)) -> lockfree (bind m f).
Proof.
  intros Hm Hf. induction m as [a | X a k IH]; cbn [bind].
  - apply Hf.
  - destruct a; cbn in *; try contradiction; intros x; apply IH, Hm.
Qed.

Lemma lockfree_in_cs {A : Type} (body : Prog A) :
  lockfree body ->
  in_cs (bind body (fun r => Do AUnlock (fun _ => Ret r))).
Proof.
  intros Hb. induction body as [a | X a k IH]; cbn [bind].
  - cbn. eauto.
  - destruct a; cbn in *; try contradiction; intros x; apply IH, Hb.
Qed.

Lemma locks_once_with_mtx {A : Type} (body : Prog A) :
  lockfree body -> locks_once (I2C.with_mtx body).
Proof. intros Hb. cbn. apply (lockfree_in_cs body Hb). Qed.

Lemma lockfree_setAddress (addr : Z) : lockfree (I2C.setAddress addr).
Proof. cbn. intros fd e. destruct (negb (e =? 0)); exact I. Qed.

Lemma lockfree_writeNoSync (addr : Z) (buf : list Z) :
  lockfree (I2C.writeNoSync addr buf).
Proof.
  apply lockfree_bind; [apply lockfree_setAddress|].
  intros [e|]; cbn; auto.
Qed.

Lemma lockfree_readNoSync (addr : Z) (p : list Z) :
  lockfree (I2C.readNoSync addr p).
Proof.
  apply lockfree_bind; [apply lockfree_setAddress|].
  intros [e|]; cbn; auto.
Qed.

Lemma lockfree_reg_read n conv addr reg : lockfree (reg_read n conv addr reg).
Proof.
  apply lockfree_bind; [apply lockfree_writeNoSync|].
  intros [k [e|]]; [exact I|].
  apply lockfree_bind; [apply lockfree_readNoSync|].
  intros [buf [k' [e|]]]; exact I.
Qed.

Lemma lockfree_reg_write buf addr : lockfree (reg_write buf addr).
Proof.
  apply lockfree_bind; [apply lockfree_writeNoSync|].
  intros [k [e|]]; exact I.
Qed.

Lemma regop_locks_once (o : regop) : locks_once (regop_prog o).
Proof.
  destruct o; cbn [regop_prog];
    rewrite ?ReadRegU8_skeleton, ?ReadRegU16BE_skeleton,
      ?ReadRegS16BE_skeleton, ?WriteRegU8_skeleton,
      ?WriteRegU16BE_skeleton, ?WriteRegS16BE_skeleton;
    apply locks_once_with_mtx;
    first [apply lockfree_reg_read | apply lockfree_reg_write].
Qed.

(** ** Interleavings *)

Lemma other_involutive (t : tid) : other (other t) = t.
Proof. destruct t; reflexivity. Qed.

Lemma tag_issued_by (t : tid) (evs : list Event) :
  Forall (issued_by t) (tag t evs).
Proof.
  unfold tag. induction evs; cbn; constructor; [reflexivity | assumption].
Qed.

Lemma all_ordered (t : tid) (tr : list (tid * Event)) :
  Forall (issued_by t) tr -> ordered t tr.
Proof.
  intros H. exists tr, []. rewrite app_nil_r. repeat split; auto.
Qed.

Lemma all_ordered_other (t : tid) (tr : list (tid * Event)) :
  Forall (issued_by (other t)) tr -> ordered t tr.
Proof. intros H. exists [], tr. repeat split; auto. Qed.

Lemma ordered_app (t : tid) (tr l : list (tid * Event)) :
  ordered t tr -> Forall (issued_by (other t)) l -> ordered t (tr ++ l).
Proof.
  intros (a & b & -> & Ha & Hb) Hl. exists a, (b ++ l).
  rewrite app_assoc. repeat split; auto. apply Forall_app; auto.
Qed.

Lemma issued_by_other (t : tid) (e : tid * Event) :
  issued_by t e -> issued_by (other t) e -> False.
Proof. unfold issued_by. destruct t, e as [[|] ?]; cbn; congruence. Qed.

(** A trace in two blocks has no interleaving. *)
Lemma ordered_no_interleaving (t : tid) (tr : list (tid * Event)) :
  ordered t tr -> no_interleaving tr.
Proof.
  intros (a & b & -> & Ha & Hb) t' pre e1 mid e2 post Heq.
  assert (Hsecond : forall l,
             b = l ++ (t', e1) :: mid ++ (t', e2) :: post ->
             Forall (issued_by t') mid).
  { (* both requests lie in the second block *)
    intros l ->. apply Forall_app in Hb. destruct Hb as [_ Hb].
    inversion Hb as [|x xs Hx Hxs]; subst.
    apply Forall_app in Hxs. destruct Hxs as [Hmid _].
    unfold issued_by in Hx. cbn in Hx. subst t'. exact Hmid. }
  apply app_eq_app in Heq. destruct Heq as (l & [[-> Hl] | [-> Hl]]).
  - destruct l as [|x l].
    + apply (Hsecond []). cbn in Hl. symmetry. exact Hl.
    + (* the first request lies in the first block *)
      cbn in Hl. inversion Hl as [[Hx Hl']]. subst x. clear Hl.
      apply Forall_app in Ha. destruct Ha as [_ Ha].
      inversion Ha as [|y ys Hy Hys]; subst.
      unfold issued_by in Hy. cbn in Hy. subst t'.
      apply app_eq_app in Hl'. destruct Hl' as (l2 & [[-> Hl2] | [-> Hl2]]).
      * (* ... and the second one in the second block: impossible *)
        exfalso. subst b. apply Forall_app in Hb. destruct Hb as [_ Hb].
        inversion Hb as [|y ys Hy _]; subst.
        apply (issued_by_other t (t, e2)); [reflexivity | exact Hy].
      * apply Forall_app in Hys. tauto.
  - apply (Hsecond l). exact Hl.
Qed.

Section Interleaving.

Context {D : Type} (E : Env D).

Lemma thread_step_fresh {A : Type} (p p' : Prog A) m m' (d d' : D) evs :
  locks_once p -> thread_step E m d p = Some (m', d', p', evs) ->
  m = false /\ m' = true /\ in_cs p' /\ evs = [].
Proof.
  destruct p as [r | X a k]; [contradiction|].
  destruct a; cbn; try contradiction.
  intros Hcs. destruct m; [discriminate|].
  intros H. inversion H; subst. auto.
Qed.

Lemma thread_step_cs {A : Type} (p p' : Prog A) m m' (d d' : D) evs :
  in_cs p -> thread_step E m d p = Some (m', d', p', evs) ->
  (m' = m /\ in_cs p') \/
  (m = true /\ m' = false /\ returned p' /\ evs = []).
Proof.
  destruct p as [r | X a k]; [contradiction|].
  destruct a; cbn; try contradiction.
  - intros [r Hr]. destruct m; [|discriminate].
    intros H. inversion H; subst. right. rewrite Hr. cbn. auto.
  - intros Hcs H. inversion H; subst. left. auto.
  - intros Hcs. destruct (sys_ioctl E d fd cmd arg) as [d1 e].
    intros H. inversion H; subst. left. auto.
  - intros Hcs. destruct (file_write E d buf) as [d1 r].
    intros H. inversion H; subst. left. auto.
  - intros Hcs. destruct (file_read E d (length p)) as [d1 [data err]].
    intros H. inversion H; subst. left. auto.
  - intros Hcs. destruct (file_close E d) as [d1 e].
    intros H. inversion H; subst. left. auto.
Qed.

Lemma thread_step_returned {A : Type} (p : Prog A) m (d : D) :
  returned p -> thread_step E m d p = None.
Proof. destruct p; [reflexivity | contradiction]. Qed.

Lemma inv_start {A B : Type} (d : D) (p1 : Prog A) (p2 : Prog B) :
  locks_once p1 -> locks_once p2 -> inv (start d p1 p2).
Proof. intros H1 H2. exists Fresh, Fresh. cbn. auto. Qed.

Lemma inv_step {A B : Type} (c c' : Config A B) :
  inv c -> step E c c' -> inv c'.
Proof.
  intros (ph1 & ph2 & H1 & H2 & Hm & Htr) Hstep.
  destruct Hstep as [c m d p evs Hs | c m d p evs Hs].
  - destruct ph1; cbn [in_phase] in H1.
    + destruct (thread_step_fresh _ _ _ _ _ _ _ H1 Hs) as (Hf & -> & Hcs & ->).
      rewrite Hf in Hm. cbn in Hm.
      exists Crit, ph2. cbn [mtx th1 th2 trace tag map in_phase].
      rewrite app_nil_r.
      destruct ph2; try discriminate; cbn in *; repeat split; auto.
      * rewrite Htr. constructor.
      * apply (all_ordered T2); assumption.
    + destruct ph2; try contradiction.
      all: destruct (thread_step_cs _ _ _ _ _ _ _ H1 Hs)
          as [[-> Hcs] | (Hh & -> & Hret & ->)].
      * exists Crit, Fresh. cbn in *. repeat split; auto.
        apply Forall_app; split; [assumption | apply tag_issued_by].
      * exists Done, Fresh. cbn in *. rewrite app_nil_r. repeat split; auto.
      * exists Crit, Done. cbn in *. repeat split; auto.
        apply (ordered_app T2); [assumption | apply tag_issued_by].
      * exists Done, Done. cbn in *. rewrite app_nil_r. repeat split; auto.
    + rewrite (thread_step_returned _ _ _ H1) in Hs. discriminate.
  - destruct ph2; cbn [in_phase] in H2.
    + destruct (thread_step_fresh _ _ _ _ _ _ _ H2 Hs) as (Hf & -> & Hcs & ->).
      rewrite Hf in Hm.
      exists ph1, Crit. cbn [mtx th1 th2 trace tag map in_phase].
      rewrite app_nil_r.
      destruct ph1; try discriminate; cbn in *; repeat split; auto.
      * rewrite Htr. constructor.
      * apply (all_ordered T1); assumption.
    + destruct ph1; try contradiction.
      all: destruct (thread_step_cs _ _ _ _ _ _ _ H2 Hs)
          as [[-> Hcs] | (Hh & -> & Hret & ->)].
      * exists Fresh, Crit. cbn in *. repeat split; auto.
        apply Forall_app; split; [assumption | apply tag_issued_by].
      * exists Fresh, Done. cbn in *. rewrite app_nil_r. repeat split; auto.
      * exists Done, Crit. cbn in *. repeat split; auto.
        apply (ordered_app T1); [assumption | apply tag_issued_by].
      * exists Done, Done. cbn in *. rewrite app_nil_r. repeat split; auto.
    + rewrite (thread_step_returned _ _ _ H2) in Hs. discriminate.
Qed.

Lemma inv_reachable {A B : Type} (c0 c : Config A B) :
  inv c0 -> reachable E c0 c -> inv c.
Proof.
  intros H0 Hr. induction Hr as [| c c' _ IH Hs]; [exact H0|].
  exact (inv_step c c' IH Hs).
Qed.

Lemma inv_no_interleaving {A B : Type} (c : Config (D := D) A B) :
  inv c -> no_interleaving (trace c).
Proof.
  intros (ph1 & ph2 & _ & _ & _ & Htr).
  destruct ph1, ph2; cbn in Htr; try contradiction.
  - rewrite Htr. apply (ordered_no_interleaving T1), all_ordered. constructor.
  - apply (ordered_no_interleaving T2), all_ordered, Htr.
  - apply (ordered_no_interleaving T2), all_ordered, Htr.
  - apply (ordered_no_interleaving T1), all_ordered, Htr.
  - apply (ordered_no_interleaving T2), Htr.
  - apply (ordered_no_interleaving T1), all_ordered, Htr.
  - apply (ordered_no_interleaving T1), Htr.
  - destruct Htr as [H | H];
      [apply (ordered_no_interleaving T1) | apply (ordered_no_interleaving T2)];
      exact H.
Qed.

Lemma sched1_reachable {A B : Type} (c0 c : Config A B) (t : tid) :
  reachable E c0 c -> reachable E c0 (sched1 E t c).
Proof.
  intros Hr. unfold sched1. destruct t.
  - destruct (thread_step E (mtx c) (cdev c) (th1 c))
      as [[[[m d] p] evs]|] eqn:Hs; [|exact Hr].
    eapply reach_step; [exact Hr | apply step_T1; exact Hs].
  - destruct (thread_step E (mtx c) (cdev c) (th2 c))
      as [[[[m d] p] evs]|] eqn:Hs; [|exact Hr].
    eapply reach_step; [exact Hr | apply step_T2; exact Hs].
Qed.

Lemma schedule_reachable {A B : Type} (s : list tid) (c0 c : Config A B) :
  reachable E c0 c -> reachable E c0 (schedule E s c).
Proof.
  revert c. induction s as [|t s IH]; intros c Hr; cbn; [exact Hr|].
  apply IH, sched1_reachable, Hr.
Qed.

(** C1: each register-level operation takes the mutex once, as the first
    thing it does, and gives it back only to return; so when two goroutines
    call two of them on one connection, in every interleaving, whatever the
    transport sees between two requests of one call was issued by that
    call: no address-set or transfer of the other call falls between a
    reference-byte write and its data phase. *)
Theorem register_ops_atomic :
  (forall o, locks_once (regop_prog o)) /\
  (forall (d : D) (o1 o2 : regop) c,
      reachable E (start d (regop_prog o1) (regop_prog o2)) c ->
      no_interleaving (trace c)).
Proof.
  split; [exact regop_locks_once|].
  intros d o1 o2 c Hr. apply inv_no_interleaving.
  apply (inv_reachable _ _ (inv_start d _ _ (regop_locks_once o1)
                              (regop_locks_once o2)) Hr).
Qed.

End Interleaving.

(** ** The operations at concrete inputs *)

(** C2: [WriteRegU16LE] and [WriteRegS16LE] of the value 1 put
    [reg, 0x01, 0xFF] on the wire, where the big-endian writer on the
    byte-swapped value puts [reg, 0x01, 0x00]. *)
Theorem WriteRegU16LE_wire_at_1 :
  let d := Fake.holding 64 [] in
  calls (exec Fake.env (I2C.WriteRegU16LE 64 15 1) d)
  = [EvIoctl 3 I2C.I2C_SLAVE 64; EvWrite [15; 0x01; 0xFF]] /\
  calls (exec Fake.env (I2C.WriteRegS16LE 64 15 1) d)
  = [EvIoctl 3 I2C.I2C_SLAVE 64; EvWrite [15; 0x01; 0xFF]] /\
  calls (exec Fake.env (I2C.WriteRegU16BE 64 15 (spec_byte_swap 1)) d)
  = [EvIoctl 3 I2C.I2C_SLAVE 64; EvWrite [15; 0x01; 0x00]].
Proof. repeat split; vm_compute; reflexivity. Qed.

(** C4: on the wire response [0x80, 0x01], [ReadRegU16LE] returns the
    swapped word 0x0180 and [ReadRegS16LE] returns 0x0080, where the signed
    reading of the swapped word is 0x0180. *)
Theorem ReadRegS16LE_wire_80_01 :
  let d := Fake.holding 64 [0x80; 0x01] in
  ret (exec Fake.env (I2C.ReadRegU16LE 64 15) d) = (0x0180, None) /\
  ret (exec Fake.env (I2C.ReadRegS16LE 64 15) d) = (0x0080, None) /\
  i16 (Z.lor (Z.shiftl 0x01 8) 0x80) = 0x0180.
Proof. repeat split; vm_compute; reflexivity. Qed.

(** C3 fails as stated: asked for two bytes of a transport that supplies
    one, [Read] returns the count 1 and no error, the second byte of the
    buffer untouched. *)
Lemma Read_short_read_succeeds :
  let buf := [0; 0] in
  let o := exec Fake.env (I2C.Read 64 buf) (Fake.holding 64 [0xAB]) in
  ret o = ([0xAB; 0], (1, None)) /\ 1 < Z.of_nat (length buf).
Proof. split; vm_compute; reflexivity. Qed.

(** C7 fails as stated: after a successful [Close], [Write] still issues the
    set-target-address request, on the descriptor of the closed handle. *)
Lemma Write_after_Close_issues_ioctl :
  let o := exec Fake.env I2C.Close (Fake.holding 64 [0xAB]) in
  let o' := exec Fake.env (I2C.Write 64 [0xF3]) (dev o) in
  ret o = None /\
  calls o' = [EvIoctl invalid_fd I2C.I2C_SLAVE 64] /\
  ret o' = (0, Some (Errno EBADF)).
Proof. repeat split; vm_compute; reflexivity. Qed.

(** ** The theorems at concrete inputs *)

Lemma register_ops_atomic_witness :
  let c := schedule Fake.env
             [T1; T2; T1; T1; T2; T1; T1; T1; T2; T1; T1; T2; T2; T2; T2; T2]
             (start (Fake.holding 64 [7; 8])
                (regop_prog (OpReadRegU16BE 64 15))
                (regop_prog (OpWriteRegU8 64 16 9))) in
  trace c = [(T1, EvIoctl 3 I2C.I2C_SLAVE 64); (T1, EvWrite [15]);
             (T1, EvIoctl 3 I2C.I2C_SLAVE 64); (T1, EvRead 2);
             (T2, EvIoctl 3 I2C.I2C_SLAVE 64); (T2, EvWrite [16; 9])] /\
  no_interleaving (trace c).
Proof.
  split; [vm_compute; reflexivity|].
  apply (proj2 (register_ops_atomic Fake.env)
           (Fake.holding 64 [7; 8]) (OpReadRegU16BE 64 15)
           (OpWriteRegU8 64 16 9)).
  apply schedule_reachable, reach_refl.
Defined.

Lemma address_set_failure_aborts_witness :
  exec Fake.env (I2C.Write 200 [0xF3]) (Fake.holding 64 [])
  = {| ret := (0, Some (Errno EINVAL)); dev := Fake.holding 64 [];
       calls := [EvIoctl 3 I2C.I2C_SLAVE 200] |} /\
  exec Fake.env (I2C.ReadRegU8 65 15) (Fake.holding 64 [])
  = {| ret := (0, Some (Errno ENXIO));
       dev := {| Fake.is_open := true; Fake.address := 64;
                 Fake.target := 65; Fake.stored := [] |};
       calls := [EvIoctl 3 I2C.I2C_SLAVE 65; EvWrite [15]] |}.
Proof.
  split.
  - apply (proj1 (address_set_failure_aborts Fake.env (Fake.holding 64 []) 200)
             (Fake.holding 64 []) EINVAL); [reflexivity | discriminate].
  - apply (proj2 (address_set_failure_aborts Fake.env (Fake.holding 64 []) 65)
             {| Fake.is_open := true; Fake.address := 64;
                Fake.target := 65; Fake.stored := [] |}
             {| Fake.is_open := true; Fake.address := 64;
                Fake.target := 65; Fake.stored := [] |}
             0 (Errno ENXIO) 15); reflexivity.
Defined.

Lemma register_reads_set_address_twice_witness :
  calls (exec Fake.env (I2C.ReadRegU16BE 64 15) (Fake.holding 64 [0x12; 0x34]))
  = [EvIoctl 3 I2C.I2C_SLAVE 64; EvWrite [15];
     EvIoctl 3 I2C.I2C_SLAVE 64; EvRead 2].
Proof.
  apply (register_reads_set_address_twice Fake.env
           (Fake.holding 64 [0x12; 0x34])
           {| Fake.is_open := true; Fake.address := 64;
              Fake.target := 64; Fake.stored := [0x12; 0x34] |}
           {| Fake.is_open := true; Fake.address := 64;
              Fake.target := 64; Fake.stored := [0x12; 0x34] |}
           64 15 1); reflexivity.
Defined.

Lemma ReadRegU16_endianness_witness :
  let d := Fake.holding 64 [0x12; 0x34] in
  ret (exec Fake.env (I2C.ReadRegU16BE 64 15) d) = (0x1234, None) /\
  ret (exec Fake.env (I2C.ReadRegU16LE 64 15) d) = (0x3412, None).
Proof.
  apply (ReadRegU16_endianness Fake.env (Fake.holding 64 [0x12; 0x34])
           64 15 0x12 0x34).
  - unfold reg_read_answers. do 5 eexists. repeat split; reflexivity.
  - unfold is_u8. lia.
  - unfold is_u8. lia.
Defined.

Lemma Read_relays_handle_read_witness :
  exec Fake.env (I2C.Read 64 [0; 0]) (Fake.holding 64 [0xAB])
  = {| ret := ([0xAB; 0], (1, None));
       dev := {| Fake.is_open := true; Fake.address := 64;
                 Fake.target := 64; Fake.stored := [0xAB] |};
       calls := [EvIoctl 3 I2C.I2C_SLAVE 64; EvRead 2] |}.
Proof.
  apply (Read_relays_handle_read Fake.env (Fake.holding 64 [0xAB])
           {| Fake.is_open := true; Fake.address := 64;
              Fake.target := 64; Fake.stored := [0xAB] |}
           {| Fake.is_open := true; Fake.address := 64;
              Fake.target := 64; Fake.stored := [0xAB] |}
           64 [0; 0] [0xAB] None); reflexivity.
Defined.

Lemma U16BE_write_read_roundtrip_witness :
  let o1 := exec Fake.env (I2C.WriteRegU16BE 64 15 0xBEEF)
              (Fake.holding 64 []) in
  let o2 := exec Fake.env (I2C.ReadRegU16BE 64 15) (dev o1) in
  ret o1 = None /\
  Fake.stored (dev o1) = [0xBE; 0xEF] /\
  ret o2 = (0xBEEF, None).
Proof.
  apply (U16BE_write_read_roundtrip (Fake.holding 64 []) 64 15 0xBEEF).
  - unfold is_u16. lia.
  - lia.
  - reflexivity.
  - reflexivity.
Defined.

Lemma closed_connection_fails_at_address_set_witness :
  let d' := dev (exec Fake.env I2C.Close (Fake.holding 64 [0xAB])) in
  every_operation_yields Fake.env d' 64 (Errno EBADF) d'
    [EvIoctl invalid_fd I2C.I2C_SLAVE 64].
Proof.
  apply (closed_connection_fails_at_address_set Fake.env
           (Fake.holding 64 [0xAB]) 64).
  - exact Fake_closes_handle.
  - exact Fake_rejects_invalid_fd.
  - reflexivity.
Defined.

(** * Further properties of the package *)

(** ** Raw and register writes *)

Section Writes.

Context {D : Type} (E : Env D).

Import I2C.

(** X1: [Write] hands the caller's buffer to the handle as it is, in one
    transfer after the address-set, and returns what the handle reports;
    [WriteByte] is [Write] of the one-byte buffer. *)
Theorem Write_hands_buffer_to_handle (d d1 d2 : D) (addr : Z) (buf : list Z)
  (r : Z * option error) :
  sys_ioctl E d (fd_of E d) I2C_SLAVE addr = (d1, 0) ->
  file_write E d1 buf = (d2, r) ->
  exec E (Write addr buf) d
  = {| ret := r; dev := d2;
       calls := [EvIoctl (fd_of E d) I2C_SLAVE addr; EvWrite buf] |} /\
  (forall b, WriteByte addr b = Write addr [b]).
Proof.
  intros H Hw. split; [|reflexivity].
  unfold Write. rewrite exec_with_mtx.
  apply (exec_writeNoSync_sent E _ _ _ _ _ _ H Hw).
Qed.

(** X2: the register writers send the register reference and the value in one
    transfer, most significant byte first for the 16-bit ones, and return the
    error of that transfer alone: the count it reports is dropped. *)
Theorem register_writes_one_transfer (d d1 : D) (addr reg : Z) :
  sys_ioctl E d (fd_of E d) I2C_SLAVE addr = (d1, 0) ->
  let out := fun (bytes : list Z) (d2 : D) (err : option error) =>
    {| ret := err; dev := d2;
       calls := [EvIoctl (fd_of E d) I2C_SLAVE addr;
                 EvWrite (reg :: bytes)] |} in
  (forall value d2 k err,
      file_write E d1 [reg; value] = (d2, (k, err)) ->
      exec E (WriteRegU8 addr reg value) d = out [value] d2 err) /\
  (forall value d2 k err,
      is_u16 value ->
      file_write E d1 [reg; value / 256; value mod 256] = (d2, (k, err)) ->
      exec E (WriteRegU16BE addr reg value) d
      = out [value / 256; value mod 256] d2 err) /\
  (forall value d2 k err,
      is_i16 value ->
      file_write E d1 [reg; u16 value / 256; u16 value mod 256]
      = (d2, (k, err)) ->
      exec E (WriteRegS16BE addr reg value) d
      = out [u16 value / 256; u16 value mod 256] d2 err).
Proof.
  intros H out. repeat split; intros value d2 k err.
  - intros Hw. rewrite WriteRegU8_skeleton, exec_with_mtx.
    apply (exec_reg_write_sent E _ _ _ _ _ _ _ H Hw).
  - intros Hv Hw. rewrite WriteRegU16BE_skeleton, exec_with_mtx.
    rewrite hi_byte, lo_byte by assumption.
    apply (exec_reg_write_sent E _ _ _ _ _ _ _ H Hw).
  - intros Hv Hw. rewrite WriteRegS16BE_skeleton, exec_with_mtx.
    rewrite hi_byte by apply u16_bounds. rewrite lo_byte, <- u16_lo_byte.
    apply (exec_reg_write_sent E _ _ _ _ _ _ _ H Hw).
Qed.

End Writes.

(** ** Register reads *)

Lemma conv_s16be_bytes (b0 b1 : Z) :
  is_u8 b0 -> is_u8 b1 ->
  conv_s16be [b0; b1]
  = if b0 <? 128 then b0 * 256 + b1 else b0 * 256 + b1 - 65536.
Proof.
  unfold is_u8, conv_s16be. intros H0 H1. cbn [nth].
  rewrite Z.shiftl_mul_pow2 by lia. change (2 ^ 8) with 256. unfold i16.
  destruct (Z.ltb_spec b0 128); Z.div_mod_to_equations; lia.
Qed.

Lemma swap_is_spec_byte_swap (w : Z) :
  is_u16 w ->
  u16 (u16 (Z.shiftl (Z.land w 0xFF) 8) + Z.shiftr w 8) = spec_byte_swap w.
Proof.
  intros Hw. unfold spec_byte_swap.
  assert (Hlo : is_u8 (Z.land w 0xFF)).
  { change 0xFF with (Z.ones 8). rewrite Z.land_ones by lia. apply u8_bounds. }
  assert (Hhi : Z.land (Z.shiftr w 8) 0xFF = Z.shiftr w 8).
  { change 0xFF with (Z.ones 8). rewrite Z.land_ones by lia.
    rewrite Z.shiftr_div_pow2 by lia. unfold is_u16 in Hw.
    apply Z.mod_small. change (2 ^ 8) with 256.
    Z.div_mod_to_equations. lia. }
  rewrite Hhi.
  assert (Hhi8 : is_u8 (Z.shiftr w 8)).
  { rewrite Z.shiftr_div_pow2 by lia. unfold is_u8, is_u16 in *.
    change (2 ^ 8) with 256. Z.div_mod_to_equations. lia. }
  rewrite bytes_lor by exact Hhi8.
  unfold is_u8 in *. rewrite Z.shiftl_mul_pow2 by lia.
  change (2 ^ 8) with 256. unfold u16.
  rewrite (Z.mod_small (Z.land w 255 * 256)) by lia.
  apply Z.mod_small. lia.
Qed.

Section Reads.

Context {D : Type} (E : Env D).

Import I2C.

(** What a register read can return: the error of the first request that
    failed, with the value 0, or the conversion of a buffer with no error. *)
Lemma reg_read_ret_cases n conv addr reg (d : D) :
  let o := exec E (reg_read n conv addr reg) d in
  (exists e, ret o = (0, Some e)) \/
  (exists buf, length buf = n /\ ret o = (conv buf, None)).
Proof.
  cbv zeta.
  destruct (sys_ioctl E d (fd_of E d) I2C_SLAVE addr) as [d1 e1] eqn:H1.
  destruct (Z.eqb_spec e1 0) as [->|He1].
  2: { left. rewrite (exec_reg_read_rejected E _ _ _ _ _ _ _ H1 He1).
       cbn. eauto. }
  destruct (file_write E d1 [reg]) as [d2 [k [werr|]]] eqn:Hw.
  { left. rewrite (exec_reg_read_unsent E _ _ _ _ _ _ _ _ _ H1 Hw).
    cbn. eauto. }
  rewrite (exec_reg_read_referenced E _ _ _ _ _ _ _ _ H1 Hw). cbv zeta.
  destruct (sys_ioctl E d2 (fd_of E d2) I2C_SLAVE addr) as [d3 e2] eqn:H2.
  destruct (Z.eqb_spec e2 0) as [->|He2].
  2: { left. rewrite (exec_readNoSync_rejected E _ _ _ _ _ H2 He2). cbn. eauto. }
  destruct (file_read E d3 (length (make n))) as [d4 [data rerr]] eqn:Hr.
  rewrite (exec_readNoSync_answered E _ _ _ _ _ _ _ H2 Hr). cbn [ret fst snd].
  destruct rerr as [e|]; [left; eauto|].
  right. exists (fill (make n) data). split; [|reflexivity].
  unfold fill. rewrite length_app, length_firstn, length_skipn, make_length.
  lia.
Qed.

(** X3: [ReadRegS16BE] returns the two bytes received read as a signed word:
    negative exactly when the top bit of the first byte is set, and in every
    case the signed reading of what [ReadRegU16BE] makes of them. *)
Theorem ReadRegS16BE_signed_reading (d : D) (addr reg b0 b1 : Z) :
  reg_read_answers E d addr reg 2 [b0; b1] -> is_u8 b0 -> is_u8 b1 ->
  ret (exec E (ReadRegS16BE addr reg) d)
  = (if b0 <? 128 then b0 * 256 + b1 else b0 * 256 + b1 - 65536, None) /\
  fst (ret (exec E (ReadRegS16BE addr reg) d))
  = i16 (fst (ret (exec E (ReadRegU16BE addr reg) d))).
Proof.
  intros Hans H0 H1.
  rewrite (ReadRegU16BE_value E d addr reg b0 b1 Hans H0 H1).
  rewrite ReadRegS16BE_skeleton, exec_with_mtx.
  rewrite (exec_reg_read_answered E _ _ _ _ _ _ Hans).
  change (fill (make 2) [b0; b1]) with [b0; b1].
  rewrite conv_s16be_bytes by assumption. split; [reflexivity|].
  cbn [fst]. unfold is_u8, i16 in *.
  destruct (Z.ltb_spec b0 128); Z.div_mod_to_equations; lia.
Qed.

(** X4: [ReadRegU8] returns the first byte the transport supplied, whatever
    else it supplied, and 0 when it supplied none without reporting an error. *)
Theorem ReadRegU8_first_byte (d : D) (addr reg : Z) (data : list Z) :
  reg_read_answers E d addr reg 1 data ->
  ret (exec E (ReadRegU8 addr reg) d) = (nth 0 data 0, None).
Proof.
  intros Hans. rewrite ReadRegU8_skeleton, exec_with_mtx.
  rewrite (exec_reg_read_answered E _ _ _ _ _ _ Hans).
  destruct data as [|b rest]; reflexivity.
Qed.

(** X5: a 16-bit register read does not look at the count of its data read:
    when the transport supplies one byte of the two and no error, the missing
    low byte reads as zero and the call succeeds. *)
Theorem register_read_short_data_zero_filled (d : D) (addr reg b0 : Z) :
  reg_read_answers E d addr reg 2 [b0] -> is_u8 b0 ->
  ret (exec E (ReadRegU16BE addr reg) d) = (b0 * 256, None) /\
  ret (exec E (ReadRegU16LE addr reg) d) = (b0, None) /\
  ret (exec E (ReadRegS16BE addr reg) d)
  = (if b0 <? 128 then b0 * 256 else b0 * 256 - 65536, None).
Proof.
  intros Hans H0.
  assert (Hz : is_u8 0) by (unfold is_u8; lia).
  assert (Hbe : ret (exec E (ReadRegU16BE addr reg) d) = (b0 * 256, None)).
  { rewrite ReadRegU16BE_skeleton, exec_with_mtx.
    rewrite (exec_reg_read_answered E _ _ _ _ _ _ Hans).
    change (fill (make 2) [b0]) with [b0; 0].
    rewrite conv_u16be_bytes by assumption. rewrite Z.add_0_r. reflexivity. }
  repeat split.
  - exact Hbe.
  - rewrite exec_ReadRegU16LE. cbv zeta. cbn [ret]. rewrite Hbe. cbn [fst snd].
    replace (b0 * 256) with (b0 * 256 + 0) by lia.
    rewrite swap_u16_bytes by assumption. reflexivity.
  - rewrite ReadRegS16BE_skeleton, exec_with_mtx.
    rewrite (exec_reg_read_answered E _ _ _ _ _ _ Hans).
    change (fill (make 2) [b0]) with [b0; 0].
    rewrite conv_s16be_bytes by assumption. rewrite !Z.add_0_r. reflexivity.
Qed.


(** X7: whatever the transport does, [ReadRegU16LE] sees the same requests and
    leaves the same state as [ReadRegU16BE], passes its error on with the
    value 0, and on success returns its word with the two bytes exchanged. *)
Theorem ReadRegU16LE_exchanges_BE_result (d : D) (addr reg : Z) :
  let be := exec E (ReadRegU16BE addr reg) d in
  let le := exec E (ReadRegU16LE addr reg) d in
  dev le = dev be /\ calls le = calls be /\
  match snd (ret be) with
  | Some e => ret le = (0, Some e)
  | None => ret le = (spec_byte_swap (fst (ret be)), None)
  end.
Proof.
  cbv zeta. rewrite exec_ReadRegU16LE. cbv zeta. cbn [ret dev calls].
  repeat split.
  destruct (snd (ret (exec E (ReadRegU16BE addr reg) d))) as [e|] eqn:Herr;
    [reflexivity|].
  f_equal. apply swap_is_spec_byte_swap.
  rewrite ReadRegU16BE_skeleton, exec_with_mtx in *.
  destruct (reg_read_ret_cases 2 conv_u16be addr reg d)
    as [[e He] | (buf & _ & Hb)].
  - rewrite He in Herr. discriminate.
  - rewrite Hb. cbn [fst]. apply u16_bounds.
Qed.

(** X8: a register read that returns an error returns the value 0 with it,
    whichever request failed. *)
Theorem register_read_error_has_zero_value (d : D) (addr reg : Z) :
  let zero_on_error := fun o : Outcome D (Z * option error) =>
    snd (ret o) <> None -> fst (ret o) = 0 in
  zero_on_error (exec E (ReadRegU8 addr reg) d) /\
  zero_on_error (exec E (ReadRegU16BE addr reg) d) /\
  zero_on_error (exec E (ReadRegU16LE addr reg) d) /\
  zero_on_error (exec E (ReadRegS16BE addr reg) d) /\
  zero_on_error (exec E (ReadRegS16LE addr reg) d).
Proof.
  intros zero_on_error.
  assert (Hrd : forall n conv,
             zero_on_error (exec E (with_mtx (reg_read n conv addr reg)) d)).
  { intros n conv Herr. rewrite exec_with_mtx in *.
    destruct (reg_read_ret_cases n conv addr reg d)
      as [[e He] | (buf & _ & Hb)].
    - rewrite He. reflexivity.
    - rewrite Hb in Herr. cbn in Herr. congruence. }
  assert (Hle : forall o o' : Outcome D (Z * option error),
             (match snd (ret o) with
              | Some _ => ret o' = (0, snd (ret o))
              | None => snd (ret o') = None
              end) -> zero_on_error o').
  { intros o o' H Herr. destruct (snd (ret o)) as [e|].
    - rewrite H. reflexivity.
    - congruence. }
  repeat split; try apply Hrd.
  - apply (Hle (exec E (ReadRegU16BE addr reg) d)).
    rewrite exec_ReadRegU16LE. cbv zeta. cbn [ret].
    destruct (snd (ret (exec E (ReadRegU16BE addr reg) d))); reflexivity.
  - apply (Hle (exec E (ReadRegS16BE addr reg) d)).
    rewrite exec_ReadRegS16LE. cbv zeta. cbn [ret].
    destruct (snd (ret (exec E (ReadRegS16BE addr reg) d))); reflexivity.
Qed.

End Reads.

(** ** Every method under the mutex *)

Lemma in_cs_bind_ret {A B : Type} (p : Prog A) (f : A -> Prog B) :
  in_cs p -> (forall a, exists r, f a = Ret r) -> in_cs (bind p f).
Proof.
  intros Hp Hf. induction p as [a | X a k IH]; [contradiction|].
  cbn [bind]. destruct a; cbn in *; try contradiction;
    try (intros x; apply IH, Hp).
  destruct Hp as [r Hr]. rewrite Hr. cbn [bind]. apply Hf.
Qed.

Lemma locks_once_bind_ret {A B : Type} (p : Prog A) (f : A -> Prog B) :
  locks_once p -> (forall a, exists r, f a = Ret r) -> locks_once (bind p f).
Proof.
  intros Hp Hf. destruct p as [a | X a k]; [contradiction|].
  destruct a; cbn in *; try contradiction.
  apply in_cs_bind_ret; assumption.
Qed.

Lemma method_locks_once (m : method) : locks_once (method_prog m).
Proof.
  destruct m; cbn [method_prog].
  - apply locks_once_with_mtx, lockfree_writeNoSync.
  - apply locks_once_with_mtx, lockfree_writeNoSync.
  - apply locks_once_with_mtx, lockfree_readNoSync.
  - apply locks_once_with_mtx. cbn. auto.
  - apply (regop_locks_once (OpReadRegU8 addr reg)).
  - apply (regop_locks_once (OpWriteRegU8 addr reg value)).
  - apply (regop_locks_once (OpReadRegU16BE addr reg)).
  - apply locks_once_bind_ret.
    + apply (regop_locks_once (OpReadRegU16BE addr reg)).
    + intros [w [e|]]; eauto.
  - apply (regop_locks_once (OpReadRegS16BE addr reg)).
  - apply locks_once_bind_ret.
    + apply (regop_locks_once (OpReadRegS16BE addr reg)).
    + intros [w [e|]]; eauto.
  - apply (regop_locks_once (OpWriteRegU16BE addr reg value)).
  - apply (regop_locks_once (OpWriteRegU16BE addr reg _)).
  - apply (regop_locks_once (OpWriteRegS16BE addr reg value)).
  - apply (regop_locks_once (OpWriteRegS16BE addr reg _)).
Qed.

Lemma prepend_prepend {D A : Type} (a b : list Event) (o : Outcome D A) :
  prepend a (prepend b o) = prepend (a ++ b) o.
Proof. unfold prepend. cbn. rewrite app_assoc. reflexivity. Qed.

Lemma tag_app (t : tid) (a b : list Event) :
  tag t (a ++ b) = tag t a ++ tag t b.
Proof. apply map_app. Qed.

Section Linearisation.

Context {D : Type} (E : Env D).

(** One step of a thread is one step of the sequential run. *)
Lemma exec_thread_step {A : Type} (p p' : Prog A) m m' (d d' : D) evs :
  thread_step E m d p = Some (m', d', p', evs) ->
  exec E p d = prepend evs (exec E p' d').
Proof.
  destruct p as [r | X a k]; [discriminate|].
  destruct a; cbn.
  - destruct m; [discriminate|]. intros H. inversion H; subst. reflexivity.
  - destruct m; [|discriminate]. intros H. inversion H; subst. reflexivity.
  - intros H. inversion H; subst. reflexivity.
  - destruct (sys_ioctl E d fd cmd arg) as [d1 e].
    intros H. inversion H; subst. reflexivity.
  - destruct (file_write E d buf) as [d1 r].
    intros H. inversion H; subst. reflexivity.
  - destruct (file_read E d (length p)) as [d1 [data err]].
    intros H. inversion H; subst. reflexivity.
  - destruct (file_close E d) as [d1 e].
    intros H. inversion H; subst. reflexivity.
Qed.

Lemma returned_is_Ret {A : Type} (p : Prog A) :
  returned p -> exists r, p = Ret r.
Proof. destruct p; [eauto | contradiction]. Qed.

(** Entering the critical section from a state the sequential run starts
    in. *)
Lemma enter_cs {A : Type} (p q : Prog A) m' (c d : D) evs :
  locks_once p -> thread_step E false c p = Some (m', d, q, evs) ->
  m' = true /\ in_cs q /\ evs = [] /\
  exec E p c = prepend [] (exec E q d).
Proof.
  intros L Hs.
  destruct (thread_step_fresh E _ _ _ _ _ _ _ L Hs) as (_ & -> & Hcs & ->).
  repeat split; auto. apply (exec_thread_step _ _ _ _ _ _ _ Hs).
Qed.

(** Moving on inside the critical section, or leaving it: in both cases the
    sequential run the thread is part of goes on from where the step ends. *)
Lemma move_in_cs {A : Type} (p0 q q' : Prog A) m' (d0 c d : D) evs0 evs :
  in_cs q -> thread_step E true c q = Some (m', d, q', evs) ->
  exec E p0 d0 = prepend evs0 (exec E q c) ->
  (m' = true /\ in_cs q' /\
   exec E p0 d0 = prepend (evs0 ++ evs) (exec E q' d)) \/
  (m' = false /\ evs = [] /\ q' = Ret (ret (exec E p0 d0)) /\
   d = dev (exec E p0 d0) /\ calls (exec E p0 d0) = evs0).
Proof.
  intros Hcs Hs Hex.
  pose proof (exec_thread_step _ _ _ _ _ _ _ Hs) as Hst.
  rewrite Hst, prepend_prepend in Hex.
  destruct (thread_step_cs E _ _ _ _ _ _ _ Hcs Hs)
    as [[-> Hcs'] | (_ & -> & Hret & ->)].
  - left. auto.
  - right. destruct (returned_is_Ret _ Hret) as [r ->].
    rewrite Hex. cbn. rewrite !app_nil_r. auto.
Qed.

Lemma linear_start {A B : Type} (d0 : D) (p1 : Prog A) (p2 : Prog B) :
  linear E d0 p1 p2 (start d0 p1 p2).
Proof. apply lin_none; reflexivity. Qed.

Lemma linear_step {A B : Type} (d0 : D) (p1 : Prog A) (p2 : Prog B)
  (c c' : Config A B) :
  locks_once p1 -> locks_once p2 ->
  linear E d0 p1 p2 c -> step E c c' -> linear E d0 p1 p2 c'.
Proof.
  intros L1 L2 Hl Hs.
  destruct Hs as [c m d q evs Hs | c m d q evs Hs].
  - (* the first goroutine moves *)
    destruct Hl as [c Hm H1 H2 Hd Ht | c evs0 Hm H1 H2 Hex Ht
                   | c evs0 Hm H1 H2 Hex Ht | c o1 Hm H1 H2 Hd Ht
                   | c o2 Hm H1 H2 Hd Ht | c evs0 o1 Hm H1 H2 Hex Ht
                   | c evs0 o2 Hm H1 H2 Hex Ht | c o1 o2 Hm H1 H2 Hd Ht
                   | c o2 o1 Hm H1 H2 Hd Ht];
      try subst o1; try subst o2;
      rewrite Hm in Hs;
      try (rewrite H1 in Hs; cbn in Hs; discriminate).
    + rewrite H1, Hd in Hs.
      destruct (enter_cs _ _ _ _ _ _ L1 Hs) as (-> & Hcs & -> & Hex).
      apply (lin_in1 E d0 p1 p2 _ []); cbn; auto.
      rewrite Ht. reflexivity.
    + destruct (move_in_cs _ _ _ _ _ _ _ _ _ H1 Hs Hex)
        as [(-> & Hcs & Hex') | (-> & -> & -> & -> & Hc)].
      * apply (lin_in1 E d0 p1 p2 _ (evs0 ++ evs)); cbn; auto.
        rewrite Ht, tag_app. reflexivity.
      * apply lin_done1; cbn; auto.
        rewrite Ht, Hc, app_nil_r. reflexivity.
    + rewrite H1 in Hs.
      destruct (thread_step_fresh E _ _ _ _ _ _ _ L1 Hs) as (Hf & _).
      discriminate.
    + rewrite H1, Hd in Hs.
      destruct (enter_cs _ _ _ _ _ _ L1 Hs) as (-> & Hcs & -> & Hex).
      apply (lin_done2_in1 E d0 p1 p2 _ []); cbn; auto.
      rewrite Ht. reflexivity.
    + destruct (move_in_cs _ _ _ _ _ _ _ _ _ H1 Hs Hex)
        as [(-> & Hcs & Hex') | (-> & -> & -> & -> & Hc)].
      * apply (lin_done2_in1 E d0 p1 p2 _ (evs0 ++ evs)); cbn; auto.
        rewrite Ht, tag_app, app_assoc. reflexivity.
      * apply lin_21; cbn; auto.
        rewrite Ht, Hc, app_nil_r. reflexivity.
  - (* the second goroutine moves *)
    destruct Hl as [c Hm H1 H2 Hd Ht | c evs0 Hm H1 H2 Hex Ht
                   | c evs0 Hm H1 H2 Hex Ht | c o1 Hm H1 H2 Hd Ht
                   | c o2 Hm H1 H2 Hd Ht | c evs0 o1 Hm H1 H2 Hex Ht
                   | c evs0 o2 Hm H1 H2 Hex Ht | c o1 o2 Hm H1 H2 Hd Ht
                   | c o2 o1 Hm H1 H2 Hd Ht];
      try subst o1; try subst o2;
      rewrite Hm in Hs;
      try (rewrite H2 in Hs; cbn in Hs; discriminate).
    + rewrite H2, Hd in Hs.
      destruct (enter_cs _ _ _ _ _ _ L2 Hs) as (-> & Hcs & -> & Hex).
      apply (lin_in2 E d0 p1 p2 _ []); cbn; auto.
      rewrite Ht. reflexivity.
    + rewrite H2 in Hs.
      destruct (thread_step_fresh E _ _ _ _ _ _ _ L2 Hs) as (Hf & _).
      discriminate.
    + destruct (move_in_cs _ _ _ _ _ _ _ _ _ H2 Hs Hex)
        as [(-> & Hcs & Hex') | (-> & -> & -> & -> & Hc)].
      * apply (lin_in2 E d0 p1 p2 _ (evs0 ++ evs)); cbn; auto.
        rewrite Ht, tag_app. reflexivity.
      * apply lin_done2; cbn; auto.
        rewrite Ht, Hc, app_nil_r. reflexivity.
    + rewrite H2, Hd in Hs.
      destruct (enter_cs _ _ _ _ _ _ L2 Hs) as (-> & Hcs & -> & Hex).
      apply (lin_done1_in2 E d0 p1 p2 _ []); cbn; auto.
      rewrite Ht. reflexivity.
    + destruct (move_in_cs _ _ _ _ _ _ _ _ _ H2 Hs Hex)
        as [(-> & Hcs & Hex') | (-> & -> & -> & -> & Hc)].
      * apply (lin_done1_in2 E d0 p1 p2 _ (evs0 ++ evs)); cbn; auto.
        rewrite Ht, tag_app, app_assoc. reflexivity.
      * apply lin_12; cbn; auto.
        rewrite Ht, Hc, app_nil_r. reflexivity.
Qed.

Lemma linear_reachable {A B : Type} (d0 : D) (p1 : Prog A) (p2 : Prog B)
  (c : Config A B) :
  locks_once p1 -> locks_once p2 ->
  reachable E (start d0 p1 p2) c -> linear E d0 p1 p2 c.
Proof.
  intros L1 L2 Hr. induction Hr as [| c c' _ IH Hs].
  - apply linear_start.
  - exact (linear_step d0 p1 p2 c c' L1 L2 IH Hs).
Qed.

Lemma not_returned_locks_once {A : Type} (p : Prog A) :
  locks_once p -> returned p -> False.
Proof. destruct p; cbn; auto. Qed.

Lemma not_returned_in_cs {A : Type} (p : Prog A) :
  in_cs p -> returned p -> False.
Proof. destruct p; cbn; auto. Qed.

Lemma in_cs_steps {A : Type} (p : Prog A) (d : D) :
  in_cs p -> exists r, thread_step E true d p = Some r.
Proof.
  destruct p as [r | X a k]; [contradiction|].
  destruct a; cbn; try contradiction; intros _; eauto.
  - destruct (sys_ioctl E d fd cmd arg); eauto.
  - destruct (file_write E d buf); eauto.
  - destruct (file_read E d (length p)) as [d1 [data err]]; eauto.
  - destruct (file_close E d); eauto.
Qed.

Lemma locks_once_steps {A : Type} (p : Prog A) (d : D) :
  locks_once p -> exists r, thread_step E false d p = Some r.
Proof.
  destruct p as [r | X a k]; [contradiction|].
  destruct a; cbn; try contradiction; intros _; eauto.
Qed.

(** X10: two calls of any two methods on one connection do not interleave at
    the transport: all fourteen methods, the raw transfers, [Close] and the
    little-endian helpers among them, take the mutex once and first, and hold
    it until they return. *)
Theorem methods_do_not_interleave :
  (forall m, locks_once (method_prog m)) /\
  (forall (d : D) (m1 m2 : method) c,
      reachable E (start d (method_prog m1) (method_prog m2)) c ->
      no_interleaving (trace c)).
Proof.
  split; [exact method_locks_once|].
  intros d m1 m2 c Hr. apply inv_no_interleaving.
  apply (inv_reachable E _ _ (inv_start d _ _ (method_locks_once m1)
                                (method_locks_once m2)) Hr).
Qed.

(** X11: two concurrent calls come out as the two calls made one after the
    other, in one order or the other: once both have returned, the mutex is
    free, and the values returned, the state left behind and the requests
    the transport saw are those of the sequential runs. *)
Theorem concurrent_calls_are_sequential_runs (d : D) (m1 m2 : method) c :
  reachable E (start d (method_prog m1) (method_prog m2)) c ->
  returned (th1 c) -> returned (th2 c) ->
  mtx c = false /\
  (ran_in_order E d (method_prog m1) (method_prog m2) T1 c \/
   ran_in_order E d (method_prog m1) (method_prog m2) T2 c).
Proof.
  intros Hr R1 R2.
  pose proof (method_locks_once m1) as L1.
  pose proof (method_locks_once m2) as L2.
  destruct (linear_reachable d _ _ c L1 L2 Hr)
    as [c Hm H1 H2 Hd Ht | c evs0 Hm H1 H2 Hex Ht
       | c evs0 Hm H1 H2 Hex Ht | c o1 Hm H1 H2 Hd Ht
       | c o2 Hm H1 H2 Hd Ht | c evs0 o1 Hm H1 H2 Hex Ht
       | c evs0 o2 Hm H1 H2 Hex Ht | c o1 o2 Hm H1 H2 Hd Ht
       | c o2 o1 Hm H1 H2 Hd Ht];
    try subst o1; try subst o2.
  1, 3, 5: exfalso; rewrite H1 in R1;
    exact (not_returned_locks_once _ L1 R1).
  1, 2: exfalso; rewrite H2 in R2;
    exact (not_returned_locks_once _ L2 R2).
  - exfalso. exact (not_returned_in_cs _ H2 R2).
  - exfalso. exact (not_returned_in_cs _ H1 R1).
  - split; [exact Hm|]. left. cbn. auto.
  - split; [exact Hm|]. right. cbn. auto.
Qed.

(** X12: two concurrent calls never get stuck: until both have returned, one of
    them can take a step.  No call waits for a mutex that nobody will
    release, and no [Unlock] finds the mutex free. *)
Theorem concurrent_calls_never_stuck (d : D) (m1 m2 : method) c :
  reachable E (start d (method_prog m1) (method_prog m2)) c ->
  (returned (th1 c) /\ returned (th2 c)) \/ exists c', step E c c'.
Proof.
  intros Hr.
  pose proof (method_locks_once m1) as L1.
  pose proof (method_locks_once m2) as L2.
  assert (S1 : forall p, th1 c = p ->
                 (exists r, thread_step E (mtx c) (cdev c) p = Some r) ->
                 exists c', step E c c').
  { intros p <- [[[[m' d'] q] evs] Hs]. eexists. apply step_T1. exact Hs. }
  assert (S2 : forall p, th2 c = p ->
                 (exists r, thread_step E (mtx c) (cdev c) p = Some r) ->
                 exists c', step E c c').
  { intros p <- [[[[m' d'] q] evs] Hs]. eexists. apply step_T2. exact Hs. }
  destruct (linear_reachable d _ _ c L1 L2 Hr)
    as [c Hm H1 H2 Hd Ht | c evs0 Hm H1 H2 Hex Ht
       | c evs0 Hm H1 H2 Hex Ht | c o1 Hm H1 H2 Hd Ht
       | c o2 Hm H1 H2 Hd Ht | c evs0 o1 Hm H1 H2 Hex Ht
       | c evs0 o2 Hm H1 H2 Hex Ht | c o1 o2 Hm H1 H2 Hd Ht
       | c o2 o1 Hm H1 H2 Hd Ht];
    try subst o1; try subst o2.
  - right. apply (S1 _ H1). rewrite Hm. apply locks_once_steps, L1.
  - right. apply (S1 _ eq_refl). rewrite Hm. apply in_cs_steps, H1.
  - right. apply (S2 _ eq_refl). rewrite Hm. apply in_cs_steps, H2.
  - right. apply (S2 _ H2). rewrite Hm. apply locks_once_steps, L2.
  - right. apply (S1 _ H1). rewrite Hm. apply locks_once_steps, L1.
  - right. apply (S2 _ eq_refl). rewrite Hm. apply in_cs_steps, H2.
  - right. apply (S1 _ eq_refl). rewrite Hm. apply in_cs_steps, H1.
  - left. rewrite H1, H2. cbn. auto.
  - left. rewrite H1, H2. cbn. auto.
Qed.

End Linearisation.

(** ** Signed words on the fake transport *)

(** X9: on the fake device that stores the last two data bytes written,
    [WriteRegS16BE] of a signed 16-bit [v] followed by [ReadRegS16BE] of the
    same register returns [v], negative values included. *)
Theorem S16BE_write_read_roundtrip (d : Fake.state) (addr reg v : Z) :
  is_i16 v -> 0 <= addr <= 0x7F ->
  Fake.is_open d = true -> Fake.address d = addr ->
  let o1 := exec Fake.env (I2C.WriteRegS16BE addr reg v) d in
  let o2 := exec Fake.env (I2C.ReadRegS16BE addr reg) (dev o1) in
  ret o1 = None /\ ret o2 = (v, None).
Proof.
  intros Hv Ha Ho Hd o1 o2.
  assert (Heq : I2C.WriteRegS16BE addr reg v
                = I2C.WriteRegU16BE addr reg (u16 v)).
  { rewrite WriteRegS16BE_skeleton, WriteRegU16BE_skeleton.
    rewrite land_u16_low. reflexivity. }
  subst o2 o1. rewrite Heq.
  destruct (Fake_written_word_read_back d addr reg (u16 v) Ha Ho Hd)
    as (Hret & _ & Hans).
  rewrite hi_byte, lo_byte in Hans by apply u16_bounds.
  split; [exact Hret|].
  rewrite ReadRegS16BE_skeleton, exec_with_mtx.
  rewrite (exec_reg_read_answered Fake.env _ _ _ _ _ _ Hans).
  change (fill (I2C.make 2) [u16 v / 256; u16 v mod 256])
    with [u16 v / 256; u16 v mod 256].
  f_equal. unfold conv_s16be, i16, u16, is_i16 in *. cbn [nth].
  rewrite Z.shiftl_mul_pow2 by lia. change (2 ^ 8) with 256.
  Z.div_mod_to_equations. lia.
Qed.

(** ** Opening a connection, and the command-line tool *)

Lemma to_int_not_nil (n : Z) :
  Z.to_int n <> Decimal.Pos Decimal.Nil /\ Z.to_int n <> Decimal.Neg Decimal.Nil.
Proof.
  destruct n as [|p|p]; cbn; split; try discriminate; intros H;
    inversion H as [Hp];
    apply (DecimalPos.Unsigned.to_uint_nonnil p); exact Hp.
Qed.

Lemma sprint_d_inj (a b : Z) : Cmd.sprint_d a = Cmd.sprint_d b -> a = b.
Proof.
  unfold Cmd.sprint_d. intros H.
  apply (f_equal DecimalString.NilZero.int_of_string) in H.
  destruct (to_int_not_nil a) as [Ha1 Ha2].
  destruct (to_int_not_nil b) as [Hb1 Hb2].
  rewrite !DecimalString.NilZero.isi in H by assumption.
  inversion H as [Hi]. apply DecimalZ.to_int_inj, Hi.
Qed.

(** X13: the device node [NewI2C] asks for tells the bus: two different bus
    numbers never name the same node. *)
Theorem NewI2C_nodes_distinct (bus bus' : Z) :
  bus <> bus' -> Cmd.device_path bus <> Cmd.device_path bus'.
Proof.
  unfold Cmd.device_path. cbn [String.append]. intros Hne H.
  inversion H as [Hs]. apply Hne, sprint_d_inj, Hs.
Qed.

Lemma hex_value_digit (n : Z) :
  0 <= n < 16 -> Cmd.hex_value (Cmd.hex_digit n) = Some n.
Proof.
  intros Hn. replace n with (Z.of_nat (Z.to_nat n)) by lia.
  assert (Hk : (Z.to_nat n < 16)%nat) by lia.
  revert Hk. generalize (Z.to_nat n). intros k Hk.
  do 16 (destruct k as [|k]; [reflexivity|]). lia.
Qed.

Lemma nibbles_lor (b : Z) :
  is_u8 b -> Z.lor (Z.shiftl (b / 16) 4) (b mod 16) = b.
Proof.
  unfold is_u8. intros Hb.
  rewrite <- Z.land_ones with (n := 4) by lia.
  rewrite <- Z.shiftr_div_pow2 with (n := 4) by lia.
  apply Z.bits_inj'. intros n Hn.
  rewrite Z.lor_spec, Z.land_spec, Z.shiftl_spec by lia.
  destruct (Z.ltb_spec n 4).
  - rewrite Z.testbit_neg_r by lia. rewrite Z.ones_spec_low by lia.
    cbn. apply andb_true_r.
  - rewrite Z.shiftr_spec by lia. rewrite Z.ones_spec_high by lia.
    rewrite andb_false_r, orb_false_r. f_equal. lia.
Qed.

Lemma decode_hex_upper (data : list Z) :
  Forall is_u8 data -> Cmd.DecodeString (Cmd.hex_upper data) = Some data.
Proof.
  induction 1 as [|b rest Hb _ IH]; [reflexivity|].
  cbn [Cmd.hex_upper Cmd.DecodeString].
  unfold is_u8 in Hb.
  rewrite !hex_value_digit by (Z.div_mod_to_equations; lia).
  rewrite IH, nibbles_lor by exact Hb. reflexivity.
Qed.

Lemma hex_upper_length (data : list Z) :
  String.length (Cmd.hex_upper data) = (2 * length data)%nat.
Proof. induction data; cbn; [|rewrite IHdata]; lia. Qed.

Lemma string_append_length (s t : String.string) :
  String.length (String.append s t)
  = (String.length s + String.length t)%nat.
Proof. induction s; cbn; [|rewrite IHs]; reflexivity. Qed.

(** X14: what [read] prints is what [write] takes: the digits after the ["0x"]
    of the output of the [read] command are decoded by [parseHex] into the
    bytes that were printed. *)
Theorem read_output_is_write_input (data : list Z) :
  Forall is_u8 data ->
  Cmd.parseHex (Cmd.hex_upper data) = inl data /\
  String.length (Cmd.hex_upper data) = (2 * length data)%nat.
Proof.
  intros H. unfold Cmd.parseHex. rewrite decode_hex_upper by exact H.
  split; [reflexivity | apply hex_upper_length].
Qed.

Lemma skipn_repeat {A : Type} (x : A) (k n : nat) :
  skipn k (repeat x n) = repeat x (n - k).
Proof.
  revert n. induction k as [|k IH]; intros [|n]; cbn; auto.
Qed.

Section Commands.

Context {D : Type} (E : Env D).
Variable ParseInt : String.string -> Z -> Z -> option Z.
Variable OpenFile : String.string -> Z -> Z -> D + error.

(** X15: the [read] command prints its whole buffer: [count] bytes, two digits
    each, whatever the number of bytes the transport supplied; the bytes it
    did not supply are printed as [00]. *)
Theorem read_command_prints_whole_buffer a0 a1 a2 (bus addr count : Z)
  (rc d1 d2 : D) (data : list Z) :
  ParseInt a0 0 8 = Some bus -> ParseInt a1 0 8 = Some addr ->
  ParseInt a2 0 8 = Some count -> 0 <= count ->
  OpenFile (Cmd.device_path bus) Cmd.O_RDWR Cmd.ModeExclusive = inl rc ->
  sys_ioctl E rc (fd_of E rc) I2C.I2C_SLAVE (u8 addr) = (d1, 0) ->
  file_read E d1 (Z.to_nat count) = (d2, (data, None)) ->
  (length data <= Z.to_nat count)%nat ->
  let shown := data ++ repeat 0 (Z.to_nat count - length data) in
  Cmd.read_Run E ParseInt OpenFile a0 a1 a2
  = {| Cmd.status :=
         Cmd.Exited (Cmd.sprint_0xX shown);
       Cmd.node := Some (Cmd.device_path bus);
       Cmd.bus_calls := [EvIoctl (fd_of E rc) I2C.I2C_SLAVE (u8 addr);
                         EvRead (Z.to_nat count)] |} /\
  String.length (Cmd.hex_upper shown) = (2 * Z.to_nat count)%nat.
Proof.
  intros H0 H1 H2 Hc Ho Hi Hr Hlen shown.
  assert (Hfill : fill (I2C.make (Z.to_nat count)) data = shown).
  { unfold fill, shown. rewrite make_length.
    rewrite firstn_all2 by exact Hlen. f_equal.
    unfold I2C.make. rewrite skipn_repeat. reflexivity. }
  split.
  - unfold Cmd.read_Run, Cmd.parseInt, Cmd.NewI2C.
    rewrite H0, H1, H2, Ho.
    destruct (Z.ltb_spec count 0); [lia|]. cbv zeta.
    rewrite <- (make_length (Z.to_nat count)) in Hr.
    unfold I2C.Read. rewrite exec_with_mtx.
    rewrite (exec_readNoSync_answered E _ _ _ _ _ _ _ Hi Hr).
    cbn [ret calls fst snd]. rewrite Hfill, make_length. reflexivity.
  - rewrite hex_upper_length. unfold shown.
    rewrite length_app, repeat_length. lia.
Qed.

(** X16: a negative count makes [read] panic in [make], once the device has
    been opened and before anything is asked of the bus. *)
Theorem read_command_negative_count a0 a1 a2 (bus addr count : Z) (rc : D) :
  ParseInt a0 0 8 = Some bus -> ParseInt a1 0 8 = Some addr ->
  ParseInt a2 0 8 = Some count -> count < 0 ->
  OpenFile (Cmd.device_path bus) Cmd.O_RDWR Cmd.ModeExclusive = inl rc ->
  Cmd.read_Run E ParseInt OpenFile a0 a1 a2
  = {| Cmd.status := Cmd.Panicked;
       Cmd.node := Some (Cmd.device_path bus);
       Cmd.bus_calls := [] |}.
Proof.
  intros H0 H1 H2 Hc Ho.
  unfold Cmd.read_Run, Cmd.parseInt, Cmd.NewI2C.
  rewrite H0, H1, H2, Ho.
  destruct (Z.ltb_spec count 0); [reflexivity | lia].
Qed.

Lemma Write_succeeded_sent (d : D) (addr : Z) (buf : list Z) :
  snd (ret (exec E (I2C.Write addr buf) d)) = None ->
  calls (exec E (I2C.Write addr buf) d)
  = [EvIoctl (fd_of E d) I2C.I2C_SLAVE addr; EvWrite buf].
Proof.
  unfold I2C.Write. rewrite exec_with_mtx.
  destruct (sys_ioctl E d (fd_of E d) I2C.I2C_SLAVE addr) as [d1 e] eqn:H.
  destruct (Z.eqb_spec e 0) as [->|He].
  - destruct (file_write E d1 buf) as [d2 r] eqn:Hw.
    rewrite (exec_writeNoSync_sent E _ _ _ _ _ _ H Hw). reflexivity.
  - rewrite (exec_writeNoSync_rejected E _ _ _ _ _ H He). discriminate.
Qed.

(** X17: a [write] command that returns has parsed its three arguments, opened
    the node of its bus and made one transfer: the address-set, at the
    address argument reduced modulo 256, and the write of the decoded
    bytes.  It prints nothing. *)
Theorem write_command_one_transfer a0 a1 a2 (out : String.string) :
  Cmd.status (Cmd.write_Run E ParseInt OpenFile a0 a1 a2) = Cmd.Exited out ->
  out = String.EmptyString /\
  exists bus addr data rc,
    ParseInt a0 0 8 = Some bus /\ ParseInt a1 0 8 = Some addr /\
    Cmd.DecodeString a2 = Some data /\
    OpenFile (Cmd.device_path bus) Cmd.O_RDWR Cmd.ModeExclusive = inl rc /\
    Cmd.node (Cmd.write_Run E ParseInt OpenFile a0 a1 a2)
    = Some (Cmd.device_path bus) /\
    Cmd.bus_calls (Cmd.write_Run E ParseInt OpenFile a0 a1 a2)
    = [EvIoctl (fd_of E rc) I2C.I2C_SLAVE (addr mod 256); EvWrite data].
Proof.
  unfold Cmd.write_Run, Cmd.parseInt, Cmd.parseHex, Cmd.NewI2C.
  destruct (ParseInt a0 0 8) as [bus|]; [|discriminate].
  destruct (ParseInt a1 0 8) as [addr|]; [|discriminate].
  destruct (Cmd.DecodeString a2) as [data|]; [|discriminate].
  destruct (OpenFile (Cmd.device_path bus) Cmd.O_RDWR Cmd.ModeExclusive)
    as [rc|e] eqn:Ho; [|discriminate].
  cbv zeta. cbn [Cmd.status Cmd.node Cmd.bus_calls].
  destruct (snd (ret (exec E (I2C.Write (u8 addr) data) rc))) eqn:Herr;
    [discriminate|].
  intros H. inversion H. split; [reflexivity|].
  exists bus, addr, data, rc. repeat split; try reflexivity; try exact Ho.
  apply (Write_succeeded_sent rc (u8 addr) data Herr).
Qed.

End Commands.

(** ** The further properties at concrete inputs *)

Lemma Write_hands_buffer_to_handle_witness :
  exec Fake.env (I2C.Write 64 [0x0F; 0xAB]) (Fake.holding 64 [])
  = {| ret := (2, None);
       dev := {| Fake.is_open := true; Fake.address := 64;
                 Fake.target := 64; Fake.stored := [] |};
       calls := [EvIoctl 3 I2C.I2C_SLAVE 64; EvWrite [0x0F; 0xAB]] |}.
Proof.
  apply (Write_hands_buffer_to_handle Fake.env (Fake.holding 64 [])
           {| Fake.is_open := true; Fake.address := 64;
              Fake.target := 64; Fake.stored := [] |}
           {| Fake.is_open := true; Fake.address := 64;
              Fake.target := 64; Fake.stored := [] |}
           64 [0x0F; 0xAB] (2, None)); reflexivity.
Defined.

Lemma register_writes_one_transfer_witness :
  let d := Fake.holding 64 [] in
  calls (exec Fake.env (I2C.WriteRegU8 64 0x0F 0xAB) d)
  = [EvIoctl 3 I2C.I2C_SLAVE 64; EvWrite [0x0F; 0xAB]] /\
  calls (exec Fake.env (I2C.WriteRegU16BE 64 0x0F 0xBEEF) d)
  = [EvIoctl 3 I2C.I2C_SLAVE 64; EvWrite [0x0F; 0xBE; 0xEF]] /\
  calls (exec Fake.env (I2C.WriteRegS16BE 64 0x0F (-2)) d)
  = [EvIoctl 3 I2C.I2C_SLAVE 64; EvWrite [0x0F; 0xFF; 0xFE]].
Proof.
  pose proof (register_writes_one_transfer Fake.env (Fake.holding 64 [])
                {| Fake.is_open := true; Fake.address := 64;
                   Fake.target := 64; Fake.stored := [] |}
                64 0x0F eq_refl) as (H8 & H16 & HS).
  cbv zeta. split; [|split].
  - rewrite (H8 0xAB {| Fake.is_open := true; Fake.address := 64;
                        Fake.target := 64; Fake.stored := [] |}
               2 None eq_refl).
    reflexivity.
  - rewrite (H16 0xBEEF {| Fake.is_open := true; Fake.address := 64;
                           Fake.target := 64; Fake.stored := [0xBE; 0xEF] |}
               3 None ltac:(unfold is_u16; lia) eq_refl).
    reflexivity.
  - rewrite (HS (-2) {| Fake.is_open := true; Fake.address := 64;
                        Fake.target := 64; Fake.stored := [0xFF; 0xFE] |}
               3 None ltac:(unfold is_i16; lia) eq_refl).
    reflexivity.
Defined.

Lemma ReadRegS16BE_signed_reading_witness :
  ret (exec Fake.env (I2C.ReadRegS16BE 64 15) (Fake.holding 64 [0xFF; 0xFE]))
  = (-2, None).
Proof.
  apply (ReadRegS16BE_signed_reading Fake.env (Fake.holding 64 [0xFF; 0xFE])
           64 15 0xFF 0xFE).
  - unfold reg_read_answers. do 5 eexists. repeat split; reflexivity.
  - unfold is_u8. lia.
  - unfold is_u8. lia.
Defined.

Lemma ReadRegU8_first_byte_witness :
  ret (exec Fake.env (I2C.ReadRegU8 64 15) (Fake.holding 64 [0xAB; 0xCD]))
  = (0xAB, None).
Proof.
  apply (ReadRegU8_first_byte Fake.env (Fake.holding 64 [0xAB; 0xCD])
           64 15 [0xAB]).
  unfold reg_read_answers. do 5 eexists. repeat split; reflexivity.
Defined.

Lemma register_read_short_data_zero_filled_witness :
  let d := Fake.holding 64 [0x12] in
  ret (exec Fake.env (I2C.ReadRegU16BE 64 15) d) = (0x1200, None) /\
  ret (exec Fake.env (I2C.ReadRegU16LE 64 15) d) = (0x0012, None) /\
  ret (exec Fake.env (I2C.ReadRegS16BE 64 15) d) = (0x1200, None).
Proof.
  apply (register_read_short_data_zero_filled Fake.env
           (Fake.holding 64 [0x12]) 64 15 0x12).
  - unfold reg_read_answers. do 5 eexists. repeat split; reflexivity.
  - unfold is_u8. lia.
Defined.


Lemma register_read_error_has_zero_value_witness :
  fst (ret (exec Flaky.env (I2C.ReadRegS16LE 64 15) 1%nat)) = 0.
Proof.
  apply (register_read_error_has_zero_value Flaky.env 1%nat 64 15).
  discriminate.
Defined.

Lemma methods_do_not_interleave_witness :
  let c := schedule Fake.env
             [T2; T1; T2; T1; T2; T2; T1; T2; T1; T1; T1; T1; T1; T1; T1; T1]
             (start (Fake.holding 64 [7; 8])
                (method_prog (MReadRegU16LE 64 15))
                (method_prog (MWrite 64 [1; 2; 3]))) in
  trace c = [(T2, EvIoctl 3 I2C.I2C_SLAVE 64); (T2, EvWrite [1; 2; 3]);
             (T1, EvIoctl 3 I2C.I2C_SLAVE 64); (T1, EvWrite [15]);
             (T1, EvIoctl 3 I2C.I2C_SLAVE 64); (T1, EvRead 2)] /\
  no_interleaving (trace c).
Proof.
  split; [vm_compute; reflexivity|].
  apply (proj2 (methods_do_not_interleave Fake.env)
           (Fake.holding 64 [7; 8]) (MReadRegU16LE 64 15)
           (MWrite 64 [1; 2; 3])).
  apply schedule_reachable, reach_refl.
Defined.

Lemma concurrent_calls_are_sequential_runs_witness :
  let d := Fake.holding 64 [7; 8] in
  let p1 := method_prog (MReadRegU16BE 64 15) in
  let p2 := method_prog (MWriteRegU16BE 64 15 0xBEEF) in
  let c := schedule Fake.env
             [T2; T1; T2; T1; T2; T2; T1; T2; T1; T1; T1; T1; T1; T1; T1; T1]
             (start d p1 p2) in
  th1 c = Ret (0xBEEF, None) /\
  mtx c = false /\
  (ran_in_order Fake.env d p1 p2 T1 c \/ ran_in_order Fake.env d p1 p2 T2 c).
Proof.
  split; [vm_compute; reflexivity|].
  apply (concurrent_calls_are_sequential_runs Fake.env
           (Fake.holding 64 [7; 8]) (MReadRegU16BE 64 15)
           (MWriteRegU16BE 64 15 0xBEEF)).
  - apply schedule_reachable, reach_refl.
  - vm_compute. exact I.
  - vm_compute. exact I.
Defined.

Lemma concurrent_calls_never_stuck_witness :
  let c := schedule Fake.env [T2; T2; T1; T1]
             (start (Fake.holding 64 [7; 8])
                (method_prog (MReadRegU8 64 15))
                (method_prog MClose)) in
  mtx c = true /\
  ((returned (th1 c) /\ returned (th2 c)) \/ exists c', step Fake.env c c').
Proof.
  split; [reflexivity|].
  apply (concurrent_calls_never_stuck Fake.env (Fake.holding 64 [7; 8])
           (MReadRegU8 64 15) MClose).
  apply schedule_reachable, reach_refl.
Defined.

Lemma S16BE_write_read_roundtrip_witness :
  let o1 := exec Fake.env (I2C.WriteRegS16BE 64 15 (-2))
              (Fake.holding 64 []) in
  let o2 := exec Fake.env (I2C.ReadRegS16BE 64 15) (dev o1) in
  ret o1 = None /\ ret o2 = (-2, None).
Proof.
  apply (S16BE_write_read_roundtrip (Fake.holding 64 []) 64 15 (-2)).
  - unfold is_i16. lia.
  - lia.
  - reflexivity.
  - reflexivity.
Defined.

Section CommandRuns.

Import String.

Lemma NewI2C_nodes_distinct_witness :
  Cmd.device_path 1 = "/dev/i2c-1"%string /\
  Cmd.device_path 11 = "/dev/i2c-11"%string /\
  Cmd.device_path 1 <> Cmd.device_path 11.
Proof.
  split; [reflexivity|]. split; [reflexivity|].
  apply (NewI2C_nodes_distinct 1 11). lia.
Defined.

Lemma read_output_is_write_input_witness :
  Cmd.hex_upper [0x61; 0x64; 0xDE] = "6164DE"%string /\
  Cmd.parseHex "f3"%string = inl [0xF3] /\
  Cmd.parseHex (Cmd.hex_upper [0x61; 0x64; 0xDE]) = inl [0x61; 0x64; 0xDE] /\
  String.length (Cmd.hex_upper [0x61; 0x64; 0xDE]) = 6%nat.
Proof.
  split; [reflexivity|]. split; [reflexivity|].
  apply (read_output_is_write_input [0x61; 0x64; 0xDE]).
  repeat constructor; unfold is_u8; lia.
Defined.

Lemma read_command_prints_whole_buffer_witness :
  let ParseInt := Cmd.ParseInt_table
                    [("1", 1); ("64", 64); ("3", 3)]%string in
  let OpenFile := Cmd.OpenFile_only "/dev/i2c-1"%string
                    (Fake.holding 64 [0x61; 0x64]) in
  Cmd.status (Cmd.read_Run Fake.env ParseInt OpenFile "1" "64" "3")
  = Cmd.Exited (Cmd.sprint_0xX [0x61; 0x64; 0x00]).
Proof.
  cbv zeta.
  apply (f_equal Cmd.status
           (proj1 (read_command_prints_whole_buffer Fake.env
                     (Cmd.ParseInt_table [("1", 1); ("64", 64); ("3", 3)]%string)
                     (Cmd.OpenFile_only "/dev/i2c-1"%string
                        (Fake.holding 64 [0x61; 0x64]))
                     "1"%string "64"%string "3"%string 1 64 3
                     (Fake.holding 64 [0x61; 0x64])
                     {| Fake.is_open := true; Fake.address := 64;
                        Fake.target := 64; Fake.stored := [0x61; 0x64] |}
                     {| Fake.is_open := true; Fake.address := 64;
                        Fake.target := 64; Fake.stored := [0x61; 0x64] |}
                     [0x61; 0x64]
                     eq_refl eq_refl eq_refl ltac:(lia) eq_refl eq_refl eq_refl
                     ltac:(cbn; lia)))).
Defined.

Lemma read_command_negative_count_witness :
  let ParseInt := Cmd.ParseInt_table
                    [("1", 1); ("64", 64); ("-5", -5)]%string in
  let OpenFile := Cmd.OpenFile_only "/dev/i2c-1"%string
                    (Fake.holding 64 [0x61; 0x64]) in
  Cmd.read_Run Fake.env ParseInt OpenFile "1" "64" "-5"
  = {| Cmd.status := Cmd.Panicked;
       Cmd.node := Some "/dev/i2c-1"%string;
       Cmd.bus_calls := [] |}.
Proof.
  cbv zeta.
  apply (read_command_negative_count Fake.env
           (Cmd.ParseInt_table [("1", 1); ("64", 64); ("-5", -5)]%string)
           (Cmd.OpenFile_only "/dev/i2c-1"%string
              (Fake.holding 64 [0x61; 0x64]))
           "1"%string "64"%string "-5"%string 1 64 (-5)
           (Fake.holding 64 [0x61; 0x64])); reflexivity.
Defined.

Lemma write_command_one_transfer_witness :
  let ParseInt := Cmd.ParseInt_table [("1", 1); ("64", 64)]%string in
  let OpenFile := Cmd.OpenFile_only "/dev/i2c-1"%string
                    (Fake.holding 64 []) in
  let r := Cmd.write_Run Fake.env ParseInt OpenFile "1" "64" "f3" in
  EmptyString = EmptyString /\
  exists bus addr data rc,
    ParseInt "1"%string 0 8 = Some bus /\
    ParseInt "64"%string 0 8 = Some addr /\
    Cmd.DecodeString "f3" = Some data /\
    OpenFile (Cmd.device_path bus) Cmd.O_RDWR Cmd.ModeExclusive = inl rc /\
    Cmd.node r = Some (Cmd.device_path bus) /\
    Cmd.bus_calls r
    = [EvIoctl (fd_of Fake.env rc) I2C.I2C_SLAVE (addr mod 256);
       EvWrite data].
Proof.
  cbv zeta.
  apply (write_command_one_transfer Fake.env
           (Cmd.ParseInt_table [("1", 1); ("64", 64)]%string)
           (Cmd.OpenFile_only "/dev/i2c-1"%string (Fake.holding 64 []))
           "1"%string "64"%string "f3"%string EmptyString).
  reflexivity.
Defined.

End CommandRuns.
